(** * Einstein summation over dense matrices: a model of [mat/einsum.go]

    The development embeds the subscript parser, the dimension resolver,
    the counter ("odometer") engine, the output projector and the drive
    loop of [Einsum] as Rocq functions and proves properties of them.

    Conventions.
    - A Go [rune] is a [Z] (a Unicode code point).  A subscript string is
      the list of runes that [bufio.Reader.ReadRune] yields for it.
    - A Go [int] is a [Z]; arithmetic that can leave the 64-bit range is
      written with [add64] and [mul64], which wrap around.
    - A Go [float64] is a primitive binary64 [float].
    - A [map[rune]bool] is a [gmap Z bool].  Go leaves the iteration
      order of [range] over a map unspecified: the order chosen by the
      runtime in one call is an explicit argument [rho] of [executor]
      and [Einsum].
    - A [panic] is a value of type [panic]; fallible code returns a
      [result].  The drive loop takes fuel; [None] means that the loop is
      still running after that many iterations.
    - [make] is given the memory it asks for, whatever the length. *)

From Stdlib Require Import ZArith Floats String Ascii.
From stdpp Require Import base gmap list.

Open Scope Z_scope.

Abbreviation rune := Z.

(** ** Go's [int] *)

Definition wrap64 (z : Z) : Z := (z + 2 ^ 63) mod 2 ^ 64 - 2 ^ 63.
Definition add64 (a b : Z) : Z := wrap64 (a + b).
Definition mul64 (a b : Z) : Z := wrap64 (a * b).
Definition is_int (z : Z) : Prop := - 2 ^ 63 <= z < 2 ^ 63.

(** ** Panics and results *)

Inductive panic : Type :=
  | UnexpectedAfterDash (r : rune)   (* "unexpected char %q after '-'" *)
  | UnexpectedNonLetter (r : rune)   (* "unexpected non-letter character: %q" *)
  | CounterNotFound (r : rune)       (* "einsumCounter not found for rune: %q" *)
  | Only2D (m : nat)                 (* "only 2D matrix supported, %d indicated" *)
  | DimMismatch (dim v : Z) (i : nat)
      (* "expected dimension %d did not match %d for input %d" *)
  | IndexOutOfRange                  (* Go runtime: index out of range *)
  | MakeSliceLen                     (* Go runtime: makeslice: len out of range *)
  | AtOutOfBounds.                   (* the operand's At panicked *)

(** The panics that [einsum.go] raises itself, as opposed to faults of
    the Go runtime or of the operand type. *)
Definition reported (e : panic) : bool :=
  match e with
  | IndexOutOfRange | MakeSliceLen | AtOutOfBounds => false
  | _ => true
  end.

Inductive result (A : Type) : Type :=
  | Ok (a : A)
  | Panic (e : panic).
Arguments Ok {A} a.
Arguments Panic {A} e.

Definition bind {A B : Type} (m : result A) (k : A -> result B) : result B :=
  match m with
  | Ok a => k a
  | Panic e => Panic e
  end.

Notation "x <- m ;; k" := (bind m (fun x => k))
  (at level 100, m at next level, right associativity).

(** ** Runes *)

Definition comma : rune := 44.
Definition dash : rune := 45.
Definition gt : rune := 62.

(** The runes of an ASCII string literal. *)
Fixpoint runes (s : string) : list rune :=
  match s with
  | EmptyString => []
  | String a s' => Z.of_N (N_of_ascii a) :: runes s'
  end.

(** [unicode.IsSpace], from Go's standard library: the Latin-1 switch
    and the [White_Space] range table above Latin-1. *)
Definition IsSpace (r : rune) : bool :=
  if (0 <=? r) && (r <=? 0xFF) then
    (r =? 9) || (r =? 10) || (r =? 11) || (r =? 12) || (r =? 13)
    || (r =? 32) || (r =? 0x85) || (r =? 0xA0)
  else
    (r =? 0x1680) || ((0x2000 <=? r) && (r <=? 0x200a))
    || (r =? 0x2028) || (r =? 0x2029) || (r =? 0x202f)
    || (r =? 0x205f) || (r =? 0x3000).

(** The letters of Latin-1, as in the [properties] table of Go's
    [unicode] package. *)
Definition latin1Letter (r : rune) : bool :=
  ((0x41 <=? r) && (r <=? 0x5A)) || ((0x61 <=? r) && (r <=? 0x7A))
  || (r =? 0xAA) || (r =? 0xB5) || (r =? 0xBA)
  || ((0xC0 <=? r) && (r <=? 0xD6)) || ((0xD8 <=? r) && (r <=? 0xF6))
  || ((0xF8 <=? r) && (r <=? 0xFF)).

(** ** Operands *)

(** Modelled from the spec: the operand type [Matrix] and its
    constructors [NewDense] and [NewVecDense] are declared outside the
    files at hand.  An operand answers [Dims] with its row and column
    counts (a vector of length [n] reports [(n, 1)]) and [At i j] with
    the element at row [i], column [j], valid for [0 <= i < rows] and
    [0 <= j < cols]; data is laid out row by row. *)
Record Matrix : Type := {
  m_rows : Z;
  m_cols : Z;
  m_elem : Z -> Z -> float
}.

Definition Dims (m : Matrix) : Z * Z := (m_rows m, m_cols m).

Definition At (m : Matrix) (i j : Z) : result float :=
  if (0 <=? i) && (i <? m_rows m) && (0 <=? j) && (j <? m_cols m)
  then Ok (m_elem m i j)
  else Panic AtOutOfBounds.

Definition NewDense (r c : Z) (data : list float) : Matrix :=
  {| m_rows := r; m_cols := c;
     m_elem := fun i j => nth (Z.to_nat (i * c + j)) data 0%float |}.

Definition NewVecDense (n : Z) (data : list float) : Matrix :=
  {| m_rows := n; m_cols := 1;
     m_elem := fun i _ => nth (Z.to_nat i) data 0%float |}.

(** Operands whose dimensions are Go [int]s. *)
Definition int_dims (m : Matrix) : Prop := is_int (m_rows m) /\ is_int (m_cols m).

(** ** Data model *)

Record einsumOps : Type := {
  o_seq : list rune;
  o_all : gmap Z bool;
  o_free : gmap Z bool;
  o_inputs : list (list rune);
  o_output : list rune
}.

Record einsumCounter : Type := {
  ec_r : rune;
  ec_free : bool;
  ec_v : Z;
  ec_dim : Z
}.

Record einsumExecutor : Type := {
  c_c : list einsumCounter;
  c_done : bool
}.

Inductive opsParseMode : Type :=
  | opsParseModeNewInput
  | opsParseModeGrowInput
  | opsParseModeOutput.

(** A read of a [map[rune]bool]: a missing key reads as [false]. *)
Definition mapGet (m : gmap Z bool) (r : rune) : bool := default false (m !! r).

(** An iteration order of [range] over a map: some enumeration of its
    keys, each key once. *)
Definition range_order (rho : gmap Z bool -> list rune) : Prop :=
  forall m, rho m ≡ₚ (map_to_list m).*1.

(** ** The odometer *)

Definition setV (ec : einsumCounter) (v : Z) : einsumCounter :=
  {| ec_r := ec_r ec; ec_free := ec_free ec; ec_v := v; ec_dim := ec_dim ec |}.

Definition setDim (ec : einsumCounter) (dim : Z) : einsumCounter :=
  {| ec_r := ec_r ec; ec_free := ec_free ec; ec_v := ec_v ec; ec_dim := dim |}.

(** The body of [increment]'s loop from the iteration whose [idx] is
    [k - 1] on; [idx] runs from [len(c.c) - 1] down to [0]. *)
Fixpoint incrementFrom (k : nat) (c : einsumExecutor) : einsumExecutor :=
  match k with
  | O => c
  | S idx =>
      match c_c c !! idx with
      | None => c
      | Some ec =>
          if add64 (ec_v ec) 1 <? ec_dim ec then
            {| c_c := <[idx := setV ec (add64 (ec_v ec) 1)]> (c_c c);
               c_done := c_done c |}
          else if (idx =? 0)%nat then
            {| c_c := c_c c; c_done := true |}
          else
            incrementFrom idx
              {| c_c := <[idx := setV ec 0]> (c_c c); c_done := c_done c |}
      end
  end.

Definition increment (c : einsumExecutor) : einsumExecutor :=
  incrementFrom (length (c_c c)) c.

(** [n] successive calls of [increment]. *)
Fixpoint incrementN (n : nat) (c : einsumExecutor) : einsumExecutor :=
  match n with
  | O => c
  | S n' => incrementN n' (increment c)
  end.

(** ** The output projector *)

Fixpoint outputIdxLoop (rcs : list einsumCounter) (outputIdx jumpSize : Z) : Z :=
  match rcs with
  | [] => outputIdx
  | ec :: rest =>
      if negb (ec_free ec) then outputIdxLoop rest outputIdx jumpSize
      else outputIdxLoop rest
             (add64 outputIdx (mul64 (ec_v ec) jumpSize))
             (mul64 jumpSize (ec_dim ec))
  end.

(** The counters are walked backwards. *)
Definition outputIdx (c : einsumExecutor) : Z :=
  outputIdxLoop (rev (c_c c)) 0 1.

Fixpoint counterValLoop (cs : list einsumCounter) (r : rune) : result Z :=
  match cs with
  | [] => Panic (CounterNotFound r)
  | ec :: rest => if ec_r ec =? r then Ok (ec_v ec) else counterValLoop rest r
  end.

Definition counterValFor (c : einsumExecutor) (r : rune) : result Z :=
  counterValLoop (c_c c) r.

(** ** The dimension resolver *)

(** The position of the first occurrence of [r], Go's [match]. *)
Fixpoint firstMatch (r : rune) (input : list rune) : option nat :=
  match input with
  | [] => None
  | x :: rest => if x =? r then Some O else S <$> firstMatch r rest
  end.

Definition matchedDim (operands : list Matrix) (i m : nat) : result Z :=
  match m with
  | O => match operands !! i with
         | Some M => Ok (Dims M).1
         | None => Panic IndexOutOfRange
         end
  | S O => match operands !! i with
           | Some M => Ok (Dims M).2
           | None => Panic IndexOutOfRange
           end
  | _ => Panic (Only2D m)
  end.

Fixpoint dimOfLoop (r : rune) (operands : list Matrix)
    (inputs : list (list rune)) (i : nat) (dim : Z) : result Z :=
  match inputs with
  | [] => Ok dim
  | input :: rest =>
      match firstMatch r input with
      | None => dimOfLoop r operands rest (S i) dim
      | Some m =>
          v <- matchedDim operands i m ;;
          if dim =? 0 then dimOfLoop r operands rest (S i) v
          else if negb (dim =? v) then Panic (DimMismatch dim v i)
          else dimOfLoop r operands rest (S i) dim
      end
  end.

Definition dimOf (o : einsumOps) (r : rune) (operands : list Matrix) : result Z :=
  dimOfLoop r operands (o_inputs o) 0 0.

(** ** Building the executor *)

Definition mkCounter (r : rune) (free : bool) : einsumCounter :=
  {| ec_r := r; ec_free := free; ec_v := 0; ec_dim := 0 |}.

(** The zero value of [einsumCounter], as [make] fills the slice. *)
Definition zeroCounter : einsumCounter := mkCounter 0 false.

Fixpoint fillFree (cs : list einsumCounter) (i : nat) (output : list rune)
    : result (list einsumCounter) :=
  match output with
  | [] => Ok cs
  | r :: rest =>
      if (i <? length cs)%nat then fillFree (<[i := mkCounter r true]> cs) (S i) rest
      else Panic IndexOutOfRange
  end.

Fixpoint fillSummed (o : einsumOps) (cs : list einsumCounter) (s : nat)
    (keys : list rune) : result (list einsumCounter) :=
  match keys with
  | [] => Ok cs
  | r :: rest =>
      if mapGet (o_free o) r then fillSummed o cs s rest
      else
        let idx := (length (o_output o) + s)%nat in
        if (idx <? length cs)%nat
        then fillSummed o (<[idx := mkCounter r false]> cs) (S s) rest
        else Panic IndexOutOfRange
  end.

Fixpoint resolveDims (o : einsumOps) (operands : list Matrix)
    (cs : list einsumCounter) : result (list einsumCounter * list Z) :=
  match cs with
  | [] => Ok ([], [])
  | ec :: rest =>
      dim <- dimOf o (ec_r ec) operands ;;
      rec <- resolveDims o operands rest ;;
      let '(rest', outputDim) := rec in
      Ok (setDim ec dim :: rest',
          if ec_free ec then dim :: outputDim else outputDim)
  end.

Definition executor (rho : gmap Z bool -> list rune) (o : einsumOps)
    (operands : list Matrix) : result (einsumExecutor * list Z) :=
  cs0 <- fillFree (replicate (size (o_all o)) zeroCounter) 0 (o_output o) ;;
  cs1 <- fillSummed o cs0 0 (rho (o_all o)) ;;
  rec <- resolveDims o operands cs1 ;;
  let '(cs2, outputDim) := rec in
  Ok ({| c_c := cs2; c_done := false |}, outputDim).

Definition outputZeros (dim : list Z) : result (list float) :=
  let total := fold_left mul64 dim 1 in
  if total <? 0 then Panic MakeSliceLen
  else Ok (replicate (Z.to_nat total) 0%float).

(** ** The parser *)

Definition emptyOps : einsumOps :=
  {| o_seq := []; o_all := ∅; o_free := ∅; o_inputs := []; o_output := [] |}.

Definition last (o : einsumOps) : rune :=
  match o_seq o with
  | [] => 0
  | _ => List.last (o_seq o) 0
  end.

Definition appendSeq (o : einsumOps) (r : rune) : einsumOps :=
  {| o_seq := o_seq o ++ [r]; o_all := o_all o; o_free := o_free o;
     o_inputs := o_inputs o; o_output := o_output o |}.

Definition markAll (o : einsumOps) (r : rune) : einsumOps :=
  {| o_seq := o_seq o; o_all := <[r := true]> (o_all o); o_free := o_free o;
     o_inputs := o_inputs o; o_output := o_output o |}.

Definition setInputs (o : einsumOps) (inputs : list (list rune)) : einsumOps :=
  {| o_seq := o_seq o; o_all := o_all o; o_free := o_free o;
     o_inputs := inputs; o_output := o_output o |}.

Definition addOutput (o : einsumOps) (r : rune) : einsumOps :=
  {| o_seq := o_seq o; o_all := o_all o; o_free := <[r := true]> (o_free o);
     o_inputs := o_inputs o; o_output := o_output o ++ [r] |}.

Section Parser.

(** [unicode.IsLetter] above Latin-1 consults the range table of the
    category L, which is a parameter here. *)
Variable letterTable : rune -> bool.

Definition IsLetter (r : rune) : bool :=
  if (0 <=? r) && (r <=? 0xFF) then latin1Letter r else letterTable r.

(** The letter case of the inner [switch mode]. *)
Definition slot (o : einsumOps) (mode : opsParseMode) (r : rune)
    : result (einsumOps * opsParseMode) :=
  match mode with
  | opsParseModeNewInput =>
      Ok (setInputs o (o_inputs o ++ [[r]]), opsParseModeGrowInput)
  | opsParseModeGrowInput =>
      let n := (length (o_inputs o) - 1)%nat in
      match o_inputs o !! n with
      | None => Panic IndexOutOfRange
      | Some input =>
          Ok (setInputs o (<[n := input ++ [r]]> (o_inputs o)),
              opsParseModeGrowInput)
      end
  | opsParseModeOutput => Ok (addOutput o r, opsParseModeOutput)
  end.

(** One turn of the reading loop of [parseEinsum]. *)
Definition parseRune (o : einsumOps) (mode : opsParseMode) (r : rune)
    : result (einsumOps * opsParseMode) :=
  if r =? comma then Ok (appendSeq o r, opsParseModeNewInput)
  else if r =? dash then Ok (appendSeq o r, mode)
  else if r =? gt then
    if negb (last o =? dash) then Panic (UnexpectedAfterDash r)
    else Ok (appendSeq o r, opsParseModeOutput)
  else if IsSpace r then Ok (o, mode)
  else if negb (IsLetter r) then Panic (UnexpectedNonLetter r)
  else
    st <- slot (markAll o r) mode r ;;
    let '(o', mode') := st in
    Ok (appendSeq o' r, mode').

Fixpoint parseLoop (o : einsumOps) (mode : opsParseMode) (rs : list rune)
    : result einsumOps :=
  match rs with
  | [] => Ok o
  | r :: rest =>
      st <- parseRune o mode r ;;
      let '(o', mode') := st in
      parseLoop o' mode' rest
  end.

Definition parseEinsum (subscripts : list rune) : result einsumOps :=
  parseLoop emptyOps opsParseModeNewInput subscripts.

(** [einsumOps.String], as the runes it writes; [x] is the index of the
    next input and [n] is [len(o.inputs)]. *)
Fixpoint writeInputs (inputs : list (list rune)) (x n : nat) : list rune :=
  match inputs with
  | [] => []
  | input :: rest =>
      input ++ (if (x <? n - 1)%nat then [comma] else [])
        ++ writeInputs rest (S x) n
  end.

Definition einsumOps_String (o : einsumOps) : list rune :=
  writeInputs (o_inputs o) 0 (length (o_inputs o)) ++ [dash; gt] ++ o_output o.

(** ** The drive loop *)

Fixpoint indexesFor (exc : einsumExecutor) (input : list rune) : result (list Z) :=
  match input with
  | [] => Ok []
  | r :: rest =>
      v <- counterValFor exc r ;;
      vs <- indexesFor exc rest ;;
      Ok (v :: vs)
  end.

Definition operandAt (exc : einsumExecutor) (M : Matrix) (input : list rune)
    : result float :=
  indexes <- indexesFor exc input ;;
  match indexes with
  | [] => Panic IndexOutOfRange
  | [i0] => At M i0 0
  | i0 :: i1 :: _ => At M i0 i1
  end.

Fixpoint product (ops : einsumOps) (exc : einsumExecutor)
    (operands : list Matrix) (i : nat) (cur : float) : result float :=
  match operands with
  | [] => Ok cur
  | M :: rest =>
      match o_inputs ops !! i with
      | None => Panic IndexOutOfRange
      | Some input =>
          x <- operandAt exc M input ;;
          product ops exc rest (S i) (PrimFloat.mul cur x)
      end
  end.

Definition accumulate (out : list float) (outputIdx : Z) (cur : float)
    : result (list float) :=
  if (0 <=? outputIdx) && (outputIdx <? Z.of_nat (length out)) then
    let n := Z.to_nat outputIdx in
    Ok (<[n := PrimFloat.add (nth n out 0%float) cur]> out)
  else Panic IndexOutOfRange.

(** One turn of the drive loop, up to the call of [increment]. *)
Definition body (ops : einsumOps) (operands : list Matrix)
    (exc : einsumExecutor) (out : list float) : result (list float) :=
  let idx := outputIdx exc in
  cur <- product ops exc operands 0 1%float ;;
  accumulate out idx cur.

Fixpoint loop (fuel : nat) (ops : einsumOps) (operands : list Matrix)
    (exc : einsumExecutor) (out : list float) : option (result (list float)) :=
  if c_done exc then Some (Ok out)
  else
    match fuel with
    | O => None
    | S fuel' =>
        match body ops operands exc out with
        | Panic e => Some (Panic e)
        | Ok out' => loop fuel' ops operands (increment exc) out'
        end
    end.

(** What [Einsum] does before its loop. *)
Definition setup (rho : gmap Z bool -> list rune) (subscripts : list rune)
    (operands : list Matrix)
    : result (einsumOps * einsumExecutor * list Z * list float) :=
  ops <- parseEinsum subscripts ;;
  ed <- executor rho ops operands ;;
  let '(exc, dim) := ed in
  out <- outputZeros dim ;;
  Ok (ops, exc, dim, out).

Definition Einsum (fuel : nat) (rho : gmap Z bool -> list rune)
    (subscripts : list rune) (operands : list Matrix)
    : option (result (list Z * list float)) :=
  match setup rho subscripts operands with
  | Panic e => Some (Panic e)
  | Ok (ops, exc, dim, out) =>
      match loop fuel ops operands exc out with
      | None => None
      | Some (Panic e) => Some (Panic e)
      | Some (Ok out') => Some (Ok (dim, out'))
      end
  end.

End Parser.

(** Two iteration orders: the order in which the finite map lists its
    keys, and the reverse of it. *)
Definition rho_keys (m : gmap Z bool) : list rune := (map_to_list m).*1.
Definition rho_rev (m : gmap Z bool) : list rune := rev (map_to_list m).*1.

(** A letter table without entries: only the letters of Latin-1. *)
Definition noTable (r : rune) : bool := false.


(** ** Subscript strings, as the specification describes them *)

(** A rune that the parser takes for an index letter. *)
Definition indexLetter (lt : rune -> bool) (r : rune) : bool :=
  negb (IsSpace r) && IsLetter lt r.

(** A non-empty sequence of index letters. *)
Definition word (lt : rune -> bool) (w : list rune) : Prop :=
  w <> [] /\ Forall (fun r => indexLetter lt r = true) w.

(** Letter sequences joined by ','. *)
Fixpoint joinComma (ws : list (list rune)) : list rune :=
  match ws with
  | [] => []
  | [w] => w
  | w :: rest => w ++ comma :: joinComma rest
  end.

(** The canonical text of a specification. *)
Definition canonical (inputs : list (list rune)) (output : list rune) : list rune :=
  joinComma inputs ++ [dash; gt] ++ output.

(** The subscript with its whitespace discarded. *)
Definition strip (s : list rune) : list rune :=
  List.filter (fun r => negb (IsSpace r)) s.

(** A well-formed subscript: one or more operand letter sequences joined
    by ',', then "->", then the output letter sequence, with whitespace
    anywhere. *)
Definition wellFormed (lt : rune -> bool) (s : list rune) : Prop :=
  exists inputs output,
    inputs <> [] /\ Forall (word lt) inputs /\
    Forall (fun r => indexLetter lt r = true) output /\
    strip s = canonical inputs output.

(** ** Notions used in the statements *)

(** A key of the map of all runes that [executor] turns into a summed
    counter. *)
Definition summedKey (o : einsumOps) (r : rune) : Prop := mapGet (o_free o) r = false.

#[local] Instance summedKey_dec o r : Decision (summedKey o r).
Proof. unfold summedKey. apply _. Defined.

(** The keys of [all] are the runes of the inputs and of the output, the
    keys of [free] those of the output. *)
Definition recorded (o : einsumOps) : Prop :=
  (forall r, is_Some (o_all o !! r) <-> r ∈ concat (o_inputs o) \/ r ∈ o_output o) /\
  (forall r, mapGet (o_free o) r = true <-> r ∈ o_output o).

(** A rune of a subscript made of operand letter sequences only. *)
Definition plain (lt : rune -> bool) (r : rune) : Prop :=
  r = comma \/ IsSpace r = true \/ indexLetter lt r = true.

(** ** The iteration space *)

(** The extent a counter really runs over: a counter whose [dim] is
    below 1 still takes the value 0. *)
Definition ext (ec : einsumCounter) : Z := Z.max 1 (ec_dim ec).

(** The size of the iteration space of a counter sequence. *)
Fixpoint space (cs : list einsumCounter) : Z :=
  match cs with
  | [] => 1
  | ec :: rest => ext ec * space rest
  end.

(** The counter values read as a mixed-radix number, the last counter
    least significant. *)
Fixpoint radixValue (cs : list einsumCounter) : Z :=
  match cs with
  | [] => 0
  | ec :: rest => ec_v ec * space rest + radixValue rest
  end.

(** What [increment] never changes in a counter. *)
Definition static (ec : einsumCounter) : rune * bool * Z :=
  (ec_r ec, ec_free ec, ec_dim ec).

(** A counter as [executor] and [increment] leave it: its extent is a Go
    [int] and its value is below the extent it runs over. *)
Definition inRange (ec : einsumCounter) : Prop :=
  is_int (ec_dim ec) /\ 0 <= ec_v ec < ext ec.

(** All combinations of counter values below the extents, in
    lexicographic order: the nested loops that the odometer emulates. *)
Fixpoint combos (cs : list einsumCounter) : list (list einsumCounter) :=
  match cs with
  | [] => [[]]
  | ec :: rest =>
      v ← seqZ 0 (ec_dim ec); cons (setV ec v) <$> combos rest
  end.

(** The counter states that the drive loop visits in its first [n] turns. *)
Fixpoint visited (n : nat) (c : einsumExecutor) : list (list einsumCounter) :=
  match n with
  | O => []
  | S n' => c_c c :: visited n' (increment c)
  end.

(** ** The drive loop, turn by turn *)

(** The turns of the drive loop over a list of counter states. *)
Fixpoint runStates (ops : einsumOps) (operands : list Matrix)
    (sts : list (list einsumCounter)) (out : list float) : result (list float) :=
  match sts with
  | [] => Ok out
  | st :: rest =>
      out' <- body ops operands {| c_c := st; c_done := false |} out ;;
      runStates ops operands rest out'
  end.

(** The sum, over the given counter states in their order, of the
    product of the operand elements that the counters select. *)
Fixpoint sumOver (ops : einsumOps) (operands : list Matrix)
    (sts : list (list einsumCounter)) (acc : float) : result float :=
  match sts with
  | [] => Ok acc
  | st :: rest =>
      cur <- product ops {| c_c := st; c_done := false |} operands 0 1%float ;;
      sumOver ops operands rest (PrimFloat.add acc cur)
  end.

(** The full sum over all index combinations. *)
Definition scalarSum (ops : einsumOps) (operands : list Matrix)
    (cs : list einsumCounter) : result float :=
  sumOver ops operands (combos cs) 0%float.

(** ** Operands of the examples *)

Definition A22 : Matrix := NewDense 2 2 [1; 2; 3; 4]%float.
Definition B22 : Matrix := NewDense 2 2 [1; 0; 1; 1]%float.
Definition C22 : Matrix := NewDense 2 2 [2; 3; 4; 5]%float.

Definition vecA : Matrix := NewVecDense 2 [1; 2]%float.
Definition vecB : Matrix := NewVecDense 2 [3; 4]%float.

Definition cancelling : Matrix := NewDense 2 2 [1e16; 1; -1e16; 0]%float.

Definition rect23 : Matrix := NewDense 2 3 [1; 2; 3; 4; 5; 6]%float.

(** ** Further notions used in the statements *)

(** The first rune at which the reading loop of [parseEinsum] panics, if
    any; [prev] is the last rune stored in [seq], [0] when there is
    none. *)
Fixpoint firstFault (lt : rune -> bool) (prev : rune) (s : list rune)
    : option panic :=
  match s with
  | [] => None
  | r :: rest =>
      if r =? comma then firstFault lt r rest
      else if r =? dash then firstFault lt r rest
      else if r =? gt then
        if prev =? dash then firstFault lt r rest
        else Some (UnexpectedAfterDash r)
      else if IsSpace r then firstFault lt prev rest
      else if IsLetter lt r then firstFault lt r rest
      else Some (UnexpectedNonLetter r)
  end.

(** A rune that the reading loop has a case for. *)
Definition validRune (lt : rune -> bool) (r : rune) : Prop :=
  r = comma \/ r = dash \/ r = gt \/ IsSpace r = true \/ IsLetter lt r = true.

(** Every '>' of the text directly follows a '-'. *)
Definition markersClosed (t : list rune) : Prop :=
  forall pre post, t = pre ++ gt :: post -> List.last pre 0 = dash.

(** The values of [all] are [true], the inputs are non-empty sequences of
    index letters and the output is a sequence of index letters. *)
Definition shaped (lt : rune -> bool) (o : einsumOps) : Prop :=
  (forall r b, o_all o !! r = Some b -> b = true) /\
  Forall (word lt) (o_inputs o) /\
  Forall (fun r => indexLetter lt r = true) (o_output o).

(** Counter sequences of the examples. *)
Definition threeCounters : einsumExecutor :=
  {| c_c := [ {| ec_r := 105; ec_free := true; ec_v := 0; ec_dim := 2 |};
              {| ec_r := 106; ec_free := true; ec_v := 0; ec_dim := 3 |};
              {| ec_r := 107; ec_free := false; ec_v := 0; ec_dim := 2 |} ];
     c_done := false |}.

Definition flatCounters : einsumExecutor :=
  {| c_c := [ {| ec_r := 105; ec_free := true; ec_v := 0; ec_dim := 0 |};
              {| ec_r := 106; ec_free := false; ec_v := 0; ec_dim := 3 |} ];
     c_done := false |}.

Definition midCounters : einsumExecutor :=
  {| c_c := [ {| ec_r := 105; ec_free := true; ec_v := 1; ec_dim := 2 |};
              {| ec_r := 107; ec_free := false; ec_v := 1; ec_dim := 2 |};
              {| ec_r := 106; ec_free := true; ec_v := 2; ec_dim := 3 |} ];
     c_done := false |}.

(** The panics of one turn of the drive loop when every rune of the
    inputs has a counter. *)
Definition turnFault (e : panic) : Prop :=
  e = IndexOutOfRange \/ e = AtOutOfBounds.


(** The extent of an operand along the axis at position [m] of its
    letter sequence: rows at position 0, columns at position 1. *)
Definition axisDim (M : Matrix) (m : nat) : Z :=
  match m with
  | O => (Dims M).1
  | _ => (Dims M).2
  end.

(** The free counters of a counter sequence. *)
Definition freeCounters (cs : list einsumCounter) : list einsumCounter :=
  filter (fun ec => ec_free ec = true) cs.


(** * Properties *)

(** ** Fuel *)

Lemma loop_mono fuel fuel' ops operands exc out r :
  loop fuel ops operands exc out = Some r -> (fuel <= fuel')%nat ->
  loop fuel' ops operands exc out = Some r.
Proof.
  revert fuel' exc out. induction fuel as [|fuel IH]; intros fuel' exc out H Hle.
  - simpl in H. destruct fuel'; simpl; destruct (c_done exc); congruence.
  - destruct fuel' as [|fuel']; [lia|].
    simpl in *. destruct (c_done exc); [done|].
    destruct (body ops operands exc out); [|done].
    apply IH; [done|lia].
Qed.

Lemma Einsum_mono lt fuel fuel' rho s operands r :
  Einsum lt fuel rho s operands = Some r -> (fuel <= fuel')%nat ->
  Einsum lt fuel' rho s operands = Some r.
Proof.
  unfold Einsum. intros H Hle.
  destruct (setup lt rho s operands) as [[[[ops exc] dim] out]|e]; [|done].
  destruct (loop fuel ops operands exc out) as [r0|] eqn:E; [|done].
  by rewrite (loop_mono _ _ _ _ _ _ _ E Hle).
Qed.

(** ** The iteration order of the map matters through the summed keys only *)

Lemma fillSummed_filter o cs s keys :
  fillSummed o cs s keys = fillSummed o cs s (filter (summedKey o) keys).
Proof.
  revert cs s. induction keys as [|r keys IH]; intros cs s; [done|].
  rewrite filter_cons. simpl. unfold summedKey at 1.
  destruct (decide _) as [E|E].
  - simpl. rewrite E. destruct (_ <? _)%nat; [apply IH|done].
  - destruct (mapGet (o_free o) r); [apply IH|done].
Qed.

Lemma executor_ext rho rho' o operands :
  filter (summedKey o) (rho (o_all o)) = filter (summedKey o) (rho' (o_all o)) ->
  executor rho o operands = executor rho' o operands.
Proof.
  intros H. unfold executor.
  destruct (fillFree _ _ _) as [cs0|]; [simpl|done].
  by rewrite (fillSummed_filter _ _ _ (rho _)), H, <- fillSummed_filter.
Qed.

Lemma Einsum_ext lt fuel rho rho' s operands :
  (forall o, parseEinsum lt s = Ok o ->
     filter (summedKey o) (rho (o_all o)) = filter (summedKey o) (rho' (o_all o))) ->
  Einsum lt fuel rho s operands = Einsum lt fuel rho' s operands.
Proof.
  intros H. unfold Einsum, setup.
  destruct (parseEinsum lt s) as [o|] eqn:E; [simpl|done].
  by rewrite (executor_ext rho rho' o operands (H o eq_refl)).
Qed.

Lemma short_Permutation {A} (l l' : list A) :
  l ≡ₚ l' -> (length l' <= 1)%nat -> l = l'.
Proof.
  intros HP Hlen. destruct l' as [|x [|y l']]; simpl in Hlen; [| |lia].
  - by apply Permutation_nil_r.
  - by apply Permutation_singleton_r.
Qed.

Lemma summed_order rho rho' o :
  range_order rho -> range_order rho' ->
  (length (filter (summedKey o) (rho' (o_all o))) <= 1)%nat ->
  filter (summedKey o) (rho (o_all o)) = filter (summedKey o) (rho' (o_all o)).
Proof.
  intros H H' Hlen. apply short_Permutation; [|done].
  by rewrite (H (o_all o)), (H' (o_all o)).
Qed.

Lemma rho_keys_order : range_order rho_keys.
Proof. by intros m. Qed.

Lemma rho_rev_order : range_order rho_rev.
Proof. intros m. unfold rho_rev. symmetry. apply Permutation_rev. Qed.

(** ** The cases of [TestEinsum] and [ExampleEinsum] *)

Example test_elementwise :
  Einsum noTable 2 rho_keys (runes "i,i->i") [vecA; vecB]
  = Some (Ok ([2], [3; 8]%float)).
Proof. by vm_compute. Qed.

Example test_outer :
  Einsum noTable 4 rho_keys (runes "i,j->ij") [vecA; vecB]
  = Some (Ok ([2; 2], [3; 4; 6; 8]%float)).
Proof. by vm_compute. Qed.

Example test_diagonal :
  Einsum noTable 2 rho_keys (runes "ii->i") [A22]
  = Some (Ok ([2], [1; 4]%float)).
Proof. by vm_compute. Qed.

Example test_transpose :
  Einsum noTable 4 rho_keys (runes "ij,ji->ij") [B22; C22]
  = Some (Ok ([2; 2], [2; 0; 3; 5]%float)).
Proof. by vm_compute. Qed.

Example test_three :
  Einsum noTable 4 rho_keys (runes "ij,ij,ij->ij") [A22; B22; C22]
  = Some (Ok ([2; 2], [2; 0; 12; 20]%float)).
Proof. by vm_compute. Qed.

Example test_rectangular :
  Einsum noTable 48 rho_keys (runes "ik,kj->ij")
    [NewDense 4 3 [1; 2; 5; 3; 4; 3; 7; 2; 9; 1; 4; 2]%float;
     NewDense 3 4 [1; 0; 2; 1; 1; 1; 0; 5; 8; 3; 1; 7]%float]
  = Some (Ok ([4; 4], [43; 17; 7; 46; 31; 13; 9; 44;
                       81; 29; 23; 80; 21; 10; 4; 35]%float)).
Proof. by vm_compute. Qed.

Example test_rows :
  Einsum noTable 8 rho_keys (runes "ij,kj->ikj") [B22; C22]
  = Some (Ok ([2; 2; 2], [2; 0; 4; 0; 2; 3; 4; 5]%float)).
Proof. by vm_compute. Qed.

Example example_matmul :
  Einsum noTable 8 rho_keys (runes "ij,jk->ik") [A22; B22]
  = Some (Ok ([2; 2], [3; 2; 7; 4]%float)).
Proof. by vm_compute. Qed.

(** ** Matrix multiplication *)

(** C1: the subscript "ik,kj->ij" on the 2x2 operands [[1,0],[1,1]] and
    [[2,3],[4,5]] returns the shape [2,2] and the flattened values
    [2,3,6,8], whatever order the runtime iterates the map of runes in. *)
Theorem einsum_matmul lt rho fuel :
  range_order rho -> (8 <= fuel)%nat ->
  Einsum lt fuel rho (runes "ik,kj->ij") [B22; C22]
  = Some (Ok ([2; 2], [2; 3; 6; 8]%float)).
Proof.
  intros Hrho Hfuel. apply Einsum_mono with 8%nat; [|done].
  rewrite (Einsum_ext lt 8 rho rho_keys); [by vm_compute|].
  intros o Ho. apply summed_order; [done|apply rho_keys_order|].
  vm_compute in Ho. injection Ho as <-. vm_compute. lia.
Qed.

Lemma einsum_matmul_witness :
  range_order rho_keys /\ (8 <= 8)%nat /\
  Einsum noTable 8 rho_keys (runes "ik,kj->ij") [B22; C22]
  = Some (Ok ([2; 2], [2; 3; 6; 8]%float)).
Proof.
  split; [apply rho_keys_order|]. split; [lia|].
  apply (einsum_matmul noTable rho_keys 8 rho_keys_order). lia.
Defined.

(** ** The parser *)

Section ParserFacts.

Variable lt : rune -> bool.

Lemma indexLetter_punct r :
  indexLetter lt r = true -> r <> comma /\ r <> dash /\ r <> gt.
Proof.
  intros H. repeat split; intros ->; vm_compute in H; discriminate.
Qed.

Lemma IsSpace_punct r :
  IsSpace r = true -> r <> comma /\ r <> dash /\ r <> gt.
Proof.
  intros H. repeat split; intros ->; vm_compute in H; discriminate.
Qed.

Lemma parseRune_space o mode r :
  IsSpace r = true -> parseRune lt o mode r = Ok (o, mode).
Proof.
  intros H. destruct (IsSpace_punct r H) as (H1 & H2 & H3).
  unfold parseRune.
  destruct (Z.eqb_spec r comma); [done|].
  destruct (Z.eqb_spec r dash); [done|].
  destruct (Z.eqb_spec r gt); [done|].
  by rewrite H.
Qed.

Lemma parseRune_letter o mode r :
  indexLetter lt r = true ->
  parseRune lt o mode r =
    (st <- slot (markAll o r) mode r ;;
     let '(o', mode') := st in Ok (appendSeq o' r, mode')).
Proof.
  intros H. destruct (indexLetter_punct r H) as (H1 & H2 & H3).
  unfold indexLetter in H. apply andb_true_iff in H as [Hs Hl].
  apply negb_true_iff in Hs.
  unfold parseRune.
  destruct (Z.eqb_spec r comma); [done|].
  destruct (Z.eqb_spec r dash); [done|].
  destruct (Z.eqb_spec r gt); [done|].
  by rewrite Hs, Hl.
Qed.

Lemma parseRune_comma o mode :
  parseRune lt o mode comma = Ok (appendSeq o comma, opsParseModeNewInput).
Proof. done. Qed.

Lemma parseRune_dash o mode :
  parseRune lt o mode dash = Ok (appendSeq o dash, mode).
Proof. done. Qed.

Lemma last_appendSeq o r : last (appendSeq o r) = r.
Proof.
  unfold last, appendSeq. simpl.
  destruct (o_seq o ++ [r]) eqn:E.
  - by destruct (o_seq o).
  - rewrite <- E. apply last_last.
Qed.

Lemma parseRune_marker o mode :
  parseRune lt (appendSeq o dash) mode gt
  = Ok (appendSeq (appendSeq o dash) gt, opsParseModeOutput).
Proof.
  unfold parseRune. change (gt =? comma) with false. change (gt =? dash) with false.
  change (gt =? gt) with true. cbv iota. by rewrite last_appendSeq.
Qed.

(** Whitespace is invisible to the parser. *)
Lemma parseLoop_strip o mode s :
  parseLoop lt o mode s = parseLoop lt o mode (strip s).
Proof.
  revert o mode. induction s as [|r s IH]; intros o mode; [done|].
  unfold strip. simpl. destruct (IsSpace r) eqn:E; simpl.
  - rewrite parseRune_space by done. simpl. apply IH.
  - destruct (parseRune lt o mode r) as [[o' mode']|]; simpl; [apply IH|done].
Qed.

Lemma parse_grow w : forall o pre cur rest,
  Forall (fun r => indexLetter lt r = true) w ->
  o_inputs o = pre ++ [cur] ->
  exists o', parseLoop lt o opsParseModeGrowInput (w ++ rest)
             = parseLoop lt o' opsParseModeGrowInput rest /\
             o_inputs o' = pre ++ [cur ++ w] /\
             o_output o' = o_output o /\ o_free o' = o_free o.
Proof.
  induction w as [|r w IH]; intros o pre cur rest Hw Hin.
  - exists o. by rewrite app_nil_r.
  - inversion Hw as [|? ? Hr Hw']; subst.
    simpl. rewrite parseRune_letter by done.
    unfold slot. cbn [o_inputs markAll]. rewrite Hin.
    rewrite length_app. simpl.
    replace (length pre + 1 - 1)%nat with (length pre + 0)%nat by lia.
    rewrite lookup_app_r by lia.
    replace (length pre + 0 - length pre)%nat with 0%nat by lia. simpl.
    rewrite insert_app_r. simpl.
    edestruct (IH (appendSeq (setInputs (markAll o r) (pre ++ [cur ++ [r]])) r)
                 pre (cur ++ [r]) rest Hw' eq_refl) as (o' & -> & Hi & Ho & Hf).
    exists o'. by rewrite Hi, Ho, Hf, <- app_assoc.
Qed.

Lemma parse_word w o rest :
  word lt w ->
  exists o', parseLoop lt o opsParseModeNewInput (w ++ rest)
             = parseLoop lt o' opsParseModeGrowInput rest /\
             o_inputs o' = o_inputs o ++ [w] /\
             o_output o' = o_output o /\ o_free o' = o_free o.
Proof.
  intros [Hne Hw]. destruct w as [|r w]; [done|].
  inversion Hw as [|? ? Hr Hw']; subst.
  simpl. rewrite parseRune_letter by done. simpl.
  edestruct (parse_grow w
      (appendSeq (setInputs (markAll o r) (o_inputs o ++ [[r]])) r)
      (o_inputs o) [r] rest Hw' eq_refl) as (o' & -> & Hi & Ho & Hf).
  by exists o'.
Qed.

Lemma parse_inputs ws : forall o rest,
  ws <> [] -> Forall (word lt) ws ->
  exists o', parseLoop lt o opsParseModeNewInput (joinComma ws ++ rest)
             = parseLoop lt o' opsParseModeGrowInput rest /\
             o_inputs o' = o_inputs o ++ ws /\
             o_output o' = o_output o /\ o_free o' = o_free o.
Proof.
  induction ws as [|w ws IH]; intros o rest Hne Hws; [done|].
  inversion Hws as [|? ? Hw Hws']; subst.
  destruct ws as [|w' ws].
  - simpl. apply parse_word. done.
  - change (joinComma (w :: w' :: ws)) with (w ++ comma :: joinComma (w' :: ws)).
    rewrite <- app_assoc.
    destruct (parse_word w o ((comma :: joinComma (w' :: ws)) ++ rest) Hw)
      as (o1 & -> & Hi1 & Ho1 & Hf1).
    change ((comma :: ?l) ++ rest) with (comma :: (l ++ rest)).
    cbn [parseLoop]. rewrite parseRune_comma. cbn [bind].
    destruct (IH (appendSeq o1 comma) rest) as (o2 & -> & Hi2 & Ho2 & Hf2);
      [done|done|].
    exists o2. split; [done|]. rewrite Hi2, Ho2, Hf2. simpl.
    by rewrite Hi1, Ho1, Hf1, <- app_assoc.
Qed.

Lemma parse_output out : forall o,
  Forall (fun r => indexLetter lt r = true) out ->
  exists o', parseLoop lt o opsParseModeOutput out = Ok o' /\
             o_inputs o' = o_inputs o /\ o_output o' = o_output o ++ out.
Proof.
  induction out as [|r out IH]; intros o Hout.
  - exists o. by rewrite app_nil_r.
  - inversion Hout as [|? ? Hr Hout']; subst.
    simpl. rewrite parseRune_letter by done. simpl.
    destruct (IH (appendSeq (addOutput (markAll o r) r) r) Hout')
      as (o' & -> & Hi & Ho).
    exists o'. split; [done|]. rewrite Hi, Ho. simpl. by rewrite <- app_assoc.
Qed.

Lemma writeInputs_join ws : forall x n,
  (x + length ws = n)%nat -> writeInputs ws x n = joinComma ws.
Proof.
  induction ws as [|w ws IH]; intros x n Hn; [done|].
  simpl in Hn. cbn [writeInputs]. rewrite (IH (S x) n) by lia.
  destruct ws as [|w' ws].
  - simpl. replace (x <? n - 1)%nat with false; [by rewrite !app_nil_r|].
    symmetry. apply Nat.ltb_ge. simpl in Hn. lia.
  - replace (x <? n - 1)%nat with true; [done|].
    symmetry. apply Nat.ltb_lt. simpl in Hn. lia.
Qed.

Lemma String_canonical o :
  einsumOps_String o = canonical (o_inputs o) (o_output o).
Proof.
  unfold einsumOps_String, canonical. by rewrite writeInputs_join.
Qed.

Lemma parse_canonical inputs output :
  inputs <> [] -> Forall (word lt) inputs ->
  Forall (fun r => indexLetter lt r = true) output ->
  exists o, parseEinsum lt (canonical inputs output) = Ok o /\
            o_inputs o = inputs /\ o_output o = output.
Proof.
  intros Hne Hin Hout. unfold parseEinsum, canonical.
  destruct (parse_inputs inputs emptyOps ([dash; gt] ++ output) Hne Hin)
    as (o1 & -> & Hi1 & Ho1 & _).
  cbn [app parseLoop].
  rewrite parseRune_dash. cbn [bind]. rewrite parseRune_marker. cbn [bind].
  destruct (parse_output output (appendSeq (appendSeq o1 dash) gt) Hout)
    as (o2 & -> & Hi2 & Ho2).
  exists o2. split; [done|]. rewrite Hi2, Ho2. simpl. by rewrite Hi1, Ho1.
Qed.

(** C3: for every well-formed subscript string, rendering the parsed
    specification back to text (operand letter sequences joined by ',',
    then "->", then the output letter sequence) reproduces the original
    string, whitespace discarded. *)
Theorem parse_String_roundtrip s :
  wellFormed lt s ->
  exists o, parseEinsum lt s = Ok o /\ einsumOps_String o = strip s.
Proof.
  intros (inputs & output & Hne & Hin & Hout & Hs).
  destruct (parse_canonical inputs output Hne Hin Hout) as (o & Hp & Hi & Ho).
  exists o. split.
  - unfold parseEinsum. rewrite parseLoop_strip, Hs. exact Hp.
  - by rewrite String_canonical, Hi, Ho.
Qed.

End ParserFacts.

Lemma parse_String_roundtrip_witness :
  wellFormed noTable (runes "ij, jk -> ik") /\
  exists o, parseEinsum noTable (runes "ij, jk -> ik") = Ok o /\
            einsumOps_String o = runes "ij,jk->ik".
Proof.
  assert (wellFormed noTable (runes "ij, jk -> ik")) as Hwf.
  { exists [[105; 106]; [106; 107]], [105; 107].
    split; [done|]. split; [|split; [|done]].
    - repeat constructor; done.
    - repeat constructor. }
  split; [exact Hwf|].
  exact (parse_String_roundtrip noTable (runes "ij, jk -> ik") Hwf).
Defined.

(** ** What the parser records *)

Section ParserInvariant.

Variable lt : rune -> bool.

Lemma recorded_empty : recorded emptyOps.
Proof.
  split; intros r; simpl.
  - rewrite lookup_empty, !elem_of_nil. split; [by intros [? ?]|tauto].
  - unfold mapGet. rewrite lookup_empty, elem_of_nil. simpl. split; [done|tauto].
Qed.

Lemma slot_grow o ws w r :
  o_inputs o = ws ++ [w] ->
  slot o opsParseModeGrowInput r
  = Ok (setInputs o (ws ++ [w ++ [r]]), opsParseModeGrowInput).
Proof.
  intros E. unfold slot. rewrite E, length_app. simpl.
  replace (length ws + 1 - 1)%nat with (length ws + 0)%nat by lia.
  rewrite lookup_app_r by lia.
  replace (length ws + 0 - length ws)%nat with 0%nat by lia. simpl.
  by rewrite insert_app_r.
Qed.

Lemma mapGet_insert (m : gmap Z bool) r r' :
  mapGet (<[r := true]> m) r' = true <-> r' = r \/ mapGet m r' = true.
Proof.
  unfold mapGet. destruct (decide (r = r')) as [->|Hne].
  - rewrite lookup_insert_eq. simpl. tauto.
  - rewrite lookup_insert_ne by done. intuition congruence.
Qed.

Lemma slot_recorded o mode r o' mode' :
  recorded o -> slot (markAll o r) mode r = Ok (o', mode') -> recorded o'.
Proof.
  intros [Ha Hf] H. destruct mode.
  - simpl in H. injection H as <- <-. split; intros x; simpl.
    + rewrite concat_app, elem_of_app. simpl. rewrite lookup_insert_is_Some, Ha.
      rewrite list_elem_of_singleton. destruct (decide (r = x)); intuition congruence.
    + apply Hf.
  - destruct (o_inputs o) as [|w ws _] eqn:E using rev_ind.
    { unfold slot in H. cbn [o_inputs markAll] in H. by rewrite E in H. }
    rewrite (slot_grow _ ws w) in H by done.
    injection H as <- <-. split; intros x; simpl.
    + rewrite concat_app, elem_of_app. simpl. rewrite app_nil_r, elem_of_app.
      rewrite lookup_insert_is_Some, Ha, concat_app, elem_of_app. simpl.
      rewrite app_nil_r, list_elem_of_singleton.
      destruct (decide (r = x)); intuition congruence.
    + apply Hf.
  - simpl in H. injection H as <- <-. split; intros x; simpl.
    + rewrite lookup_insert_is_Some, Ha, elem_of_app, list_elem_of_singleton.
      destruct (decide (r = x)); intuition congruence.
    + rewrite mapGet_insert, Hf, elem_of_app, list_elem_of_singleton. tauto.
Qed.

Lemma appendSeq_recorded o r : recorded o -> recorded (appendSeq o r).
Proof. done. Qed.

Lemma parseRune_recorded o mode r o' mode' :
  recorded o -> parseRune lt o mode r = Ok (o', mode') -> recorded o'.
Proof.
  intros Hrec H. unfold parseRune in H.
  destruct (r =? comma); [by injection H as <- <-|].
  destruct (r =? dash); [by injection H as <- <-|].
  destruct (r =? gt).
  { destruct (negb _); [done|]. by injection H as <- <-. }
  destruct (IsSpace r); [by injection H as <- <-|].
  destruct (negb _); [done|].
  destruct (slot (markAll o r) mode r) as [[o1 mode1]|] eqn:E; [|done].
  simpl in H. injection H as <- <-.
  apply appendSeq_recorded. eapply slot_recorded; done.
Qed.

Lemma parseLoop_recorded s : forall o mode o',
  recorded o -> parseLoop lt o mode s = Ok o' -> recorded o'.
Proof.
  induction s as [|r s IH]; intros o mode o' Hrec H; simpl in H.
  - by injection H as [= <-].
  - destruct (parseRune lt o mode r) as [[o1 mode1]|] eqn:E; [|done].
    simpl in H. eapply IH; [|done]. eapply parseRune_recorded; done.
Qed.

Lemma parseEinsum_recorded s o : parseEinsum lt s = Ok o -> recorded o.
Proof. apply parseLoop_recorded, recorded_empty. Qed.

(** The keys of [all] are also the index letters of the subscript. *)
Lemma parseRune_all o mode r o' mode' :
  parseRune lt o mode r = Ok (o', mode') ->
  forall x, is_Some (o_all o' !! x) <->
            is_Some (o_all o !! x) \/ (x = r /\ indexLetter lt r = true).
Proof.
  intros H x. unfold parseRune in H.
  destruct (Z.eqb_spec r comma) as [->|].
  { injection H as <- <-. simpl. split; [auto|]. by intros [?|[_ ?]]. }
  destruct (Z.eqb_spec r dash) as [->|].
  { injection H as <- <-. simpl. split; [auto|]. by intros [?|[_ ?]]. }
  destruct (Z.eqb_spec r gt) as [->|].
  { destruct (negb _); [done|]. injection H as <- <-. simpl.
    split; [auto|]. by intros [?|[_ ?]]. }
  unfold indexLetter. destruct (IsSpace r).
  { injection H as <- <-. simpl. split; [auto|]. by intros [?|[_ ?]]. }
  destruct (IsLetter lt r); simpl in H; [|done].
  destruct (slot (markAll o r) mode r) as [[o1 mode1]|] eqn:E; [|done].
  simpl in H. injection H as <- <-. simpl.
  assert (o_all o1 = <[r := true]> (o_all o)) as ->.
  { destruct mode.
    - simpl in E. by injection E as <- <-.
    - unfold slot in E. destruct (_ !! _); [|done]. by injection E as <- <-.
    - simpl in E. by injection E as <- <-. }
  rewrite lookup_insert_is_Some. simpl.
  destruct (decide (r = x)); intuition congruence.
Qed.

Lemma parseLoop_all s : forall o mode o',
  parseLoop lt o mode s = Ok o' ->
  forall x, is_Some (o_all o' !! x) <->
            is_Some (o_all o !! x) \/ (x ∈ s /\ indexLetter lt x = true).
Proof.
  induction s as [|r s IH]; intros o mode o' H x; simpl in H.
  - injection H as <-. split; [auto|]. intros [?|[Hx _]]; [done|]. inversion Hx.
  - destruct (parseRune lt o mode r) as [[o1 mode1]|] eqn:E; [|done].
    simpl in H. rewrite (IH _ _ _ H x), (parseRune_all _ _ _ _ _ E x).
    rewrite elem_of_cons. intuition congruence.
Qed.

Lemma parseEinsum_all s o :
  parseEinsum lt s = Ok o ->
  forall x, is_Some (o_all o !! x) <-> x ∈ s /\ indexLetter lt x = true.
Proof.
  intros H x. rewrite (parseLoop_all _ _ _ _ H x). simpl.
  rewrite lookup_empty. split; [|auto]. intros [[? ?]|?]; done.
Qed.

End ParserInvariant.

(** ** The iteration space *)

Lemma wrap64_int z : is_int z -> wrap64 z = z.
Proof.
  unfold is_int, wrap64. intros H. rewrite Z.mod_small; lia.
Qed.

Lemma space_pos cs : 1 <= space cs.
Proof. induction cs as [|ec cs IH]; simpl; [lia|]. unfold ext. nia. Qed.

Lemma radixValue_bounds cs :
  Forall inRange cs -> 0 <= radixValue cs < space cs.
Proof.
  induction 1 as [|ec cs [_ Hv] _ IH]; simpl; [lia|].
  pose proof (space_pos cs). nia.
Qed.

Lemma space_snoc cs ec : space (cs ++ [ec]) = space cs * ext ec.
Proof. induction cs as [|x cs IH]; simpl; [lia|]. rewrite IH. lia. Qed.

Lemma radixValue_snoc cs ec :
  radixValue (cs ++ [ec]) = radixValue cs * ext ec + ec_v ec.
Proof.
  induction cs as [|x cs IH]; simpl; [lia|]. rewrite IH, space_snoc. lia.
Qed.

Lemma space_static cs cs' :
  static <$> cs = static <$> cs' -> space cs = space cs'.
Proof.
  revert cs'. induction cs as [|ec cs IH]; intros [|ec' cs'] H; try done.
  simpl in H. injection H as H1 H2 H3 H4. simpl. unfold ext.
  by rewrite H3, (IH cs').
Qed.

Lemma step_cond ec :
  inRange ec ->
  (add64 (ec_v ec) 1 <? ec_dim ec) = (ec_v ec + 1 <? ext ec) /\
  (ec_v ec + 1 < ext ec -> add64 (ec_v ec) 1 = ec_v ec + 1).
Proof.
  intros [Hd Hv]. unfold ext in *. unfold add64.
  assert (is_int (ec_v ec + 1)) as Hi by (unfold is_int in *; lia).
  rewrite (wrap64_int _ Hi). split; [|done].
  destruct (Z.ltb_spec (ec_v ec + 1) (ec_dim ec));
    destruct (Z.ltb_spec (ec_v ec + 1) (Z.max 1 (ec_dim ec))); lia.
Qed.

Lemma setV_static ec v : static (setV ec v) = static ec.
Proof. done. Qed.

(** One call of [increment], seen on the counters below index
    [length pre]: the mixed-radix number grows by one, or it was at its
    maximum and the executor is done. *)
Lemma incrementFrom_spec pre : forall post d,
  Forall inRange pre ->
  let c' := incrementFrom (length pre) {| c_c := pre ++ post; c_done := d |} in
  (radixValue pre + 1 < space pre ->
     exists pre', c' = {| c_c := pre' ++ post; c_done := d |} /\
                  static <$> pre' = static <$> pre /\ Forall inRange pre' /\
                  radixValue pre' = radixValue pre + 1) /\
  (radixValue pre + 1 = space pre -> pre <> [] -> c_done c' = true) /\
  (pre = [] -> c' = {| c_c := post; c_done := d |}).
Proof.
  induction pre as [|ec p IH] using rev_ind; intros post d Hok c'.
  { subst c'. simpl. split; [lia|]. split; done. }
  apply Forall_app in Hok as [Hp Hec]. rewrite Forall_singleton in Hec.
  destruct (step_cond ec Hec) as [Hcond Hadd].
  pose proof (radixValue_bounds p Hp) as Hb.
  pose proof (space_pos p) as Hs.
  assert (1 <= ext ec) as He by (unfold ext; lia).
  destruct Hec as [Hd Hv].
  subst c'. rewrite length_app, Nat.add_1_r. cbn [incrementFrom c_c c_done].
  rewrite <- app_assoc. cbn [app].
  rewrite list_lookup_middle by done. rewrite Hcond.
  rewrite radixValue_snoc, space_snoc.
  destruct (Z.ltb_spec (ec_v ec + 1) (ext ec)) as [Hlt|Hge].
  - rewrite Hadd by done.
    replace (<[length p:=setV ec (ec_v ec + 1)]> (p ++ ec :: post))
      with (p ++ setV ec (ec_v ec + 1) :: post).
    2:{ rewrite insert_app_r_alt by lia. by rewrite Nat.sub_diag. }
    split; [|split].
    + intros _. exists (p ++ [setV ec (ec_v ec + 1)]).
      rewrite <- app_assoc, !fmap_app, radixValue_snoc. simpl.
      repeat split; try done.
      * apply Forall_app. split; [done|]. apply Forall_singleton.
        split; [done|]. change (ext (setV ec (ec_v ec + 1))) with (ext ec).
        simpl. lia.
      * change (ext (setV ec (ec_v ec + 1))) with (ext ec). lia.
    + intros Heq. exfalso. nia.
    + intros E. by destruct p.
  - assert (ec_v ec + 1 = ext ec) as Hmax by lia.
    destruct p as [|x p'] eqn:Ep.
    + simpl. split; [|split]; [intros; lia|done|done].
    + rewrite <- Ep in *.
      replace (length p =? 0)%nat with false
        by (symmetry; apply Nat.eqb_neq; subst p; done).
      replace (<[length p:=setV ec 0]> (p ++ ec :: post))
        with (p ++ setV ec 0 :: post).
      2:{ rewrite insert_app_r_alt by lia. by rewrite Nat.sub_diag. }
      destruct (IH (setV ec 0 :: post) d Hp) as (IH1 & IH2 & _).
      split; [|split].
      * intros Hlt. destruct IH1 as (p1 & -> & Hst & Hok1 & Hval); [nia|].
        exists (p1 ++ [setV ec 0]).
        rewrite <- app_assoc, !fmap_app, radixValue_snoc, Hst, Hval.
        repeat split; try done.
        -- apply Forall_app. split; [done|]. apply Forall_singleton.
           split; [done|]. change (ext (setV ec 0)) with (ext ec). simpl. lia.
        -- change (ext (setV ec 0)) with (ext ec). simpl. lia.
      * intros Heq _. apply IH2; [nia|by subst p].
      * intros E. by subst p.
Qed.

Lemma increment_next c :
  Forall inRange (c_c c) -> radixValue (c_c c) + 1 < space (c_c c) ->
  exists cs', increment c = {| c_c := cs'; c_done := c_done c |} /\
              static <$> cs' = static <$> c_c c /\ Forall inRange cs' /\
              radixValue cs' = radixValue (c_c c) + 1.
Proof.
  intros Hok Hlt. destruct c as [cs d]. simpl in *.
  destruct (incrementFrom_spec cs [] d Hok) as (H1 & _ & _).
  destruct (H1 Hlt) as (cs' & E & Hst & Hok' & Hv).
  exists cs'. unfold increment. simpl. rewrite !app_nil_r in E. by rewrite E.
Qed.

Lemma increment_last c :
  Forall inRange (c_c c) -> radixValue (c_c c) + 1 = space (c_c c) ->
  c_c c <> [] -> c_done (increment c) = true.
Proof.
  intros Hok Heq Hne. destruct c as [cs d]. simpl in *.
  destruct (incrementFrom_spec cs [] d Hok) as (_ & H2 & _).
  unfold increment. simpl. rewrite app_nil_r in H2. by apply H2.
Qed.

Lemma increment_nil c : c_c c = [] -> increment c = c.
Proof. intros E. unfold increment. by rewrite E. Qed.

Lemma incrementN_nil n c : c_c c = [] -> incrementN n c = c.
Proof.
  intros E. induction n as [|n IH]; [done|]. simpl. by rewrite increment_nil.
Qed.

Lemma incrementN_S n c : incrementN (S n) c = increment (incrementN n c).
Proof. revert c. induction n as [|n IH]; intros c; [done|]. simpl. by rewrite <- IH. Qed.

Lemma incrementN_spec n : forall c,
  Forall inRange (c_c c) -> radixValue (c_c c) + Z.of_nat n < space (c_c c) ->
  exists cs', incrementN n c = {| c_c := cs'; c_done := c_done c |} /\
              static <$> cs' = static <$> c_c c /\ Forall inRange cs' /\
              radixValue cs' = radixValue (c_c c) + Z.of_nat n.
Proof.
  induction n as [|n IH]; intros c Hok Hlt.
  - exists (c_c c). destruct c. simpl. repeat split; try done. lia.
  - destruct (increment_next c Hok) as (cs1 & E1 & Hst1 & Hok1 & Hv1); [lia|].
    simpl. rewrite E1.
    destruct (IH {| c_c := cs1; c_done := c_done c |}) as (cs2 & E2 & Hst2 & Hok2 & Hv2).
    + done.
    + simpl. rewrite Hv1, (space_static _ _ Hst1). lia.
    + exists cs2. simpl in *. rewrite E2, Hst2, Hst1, Hv2, Hv1.
      repeat split; try done. lia.
Qed.

Lemma static_nil cs cs' : static <$> cs' = static <$> cs -> cs <> [] -> cs' <> [].
Proof. intros H Hne ->. by destruct cs. Qed.

(** After as many calls as the iteration space has points, the executor
    is done; before, it is not touched. *)
Lemma incrementN_done c :
  Forall inRange (c_c c) -> c_c c <> [] ->
  c_done (incrementN (Z.to_nat (space (c_c c) - radixValue (c_c c))) c) = true.
Proof.
  intros Hok Hne. pose proof (radixValue_bounds _ Hok) as Hb.
  destruct (Z.to_nat (space (c_c c) - radixValue (c_c c))) as [|n] eqn:E; [lia|].
  rewrite incrementN_S.
  destruct (incrementN_spec n c Hok) as (cs' & -> & Hst & Hok' & Hv); [lia|].
  apply increment_last; simpl; [done| |by eapply static_nil].
  rewrite Hv, (space_static _ _ Hst). lia.
Qed.

Lemma zero_radixValue cs : Forall (fun ec => ec_v ec = 0) cs -> radixValue cs = 0.
Proof. induction 1 as [|ec cs Hv _ IH]; simpl; [done|]. rewrite Hv, IH. lia. Qed.

Lemma zero_inRange cs :
  Forall (fun ec => ec_v ec = 0) cs -> Forall (fun ec => is_int (ec_dim ec)) cs ->
  Forall inRange cs.
Proof.
  intros Hv Hd. apply Forall_lookup. intros i ec Hi.
  rewrite Forall_lookup in Hv. rewrite Forall_lookup in Hd.
  split; [by eapply Hd|]. rewrite (Hv _ _ Hi). unfold ext. lia.
Qed.

(** The states the drive loop visits. *)
Lemma visited_spec n : forall c,
  Forall inRange (c_c c) -> radixValue (c_c c) + Z.of_nat n <= space (c_c c) ->
  radixValue <$> visited n c = seqZ (radixValue (c_c c)) (Z.of_nat n) /\
  Forall (fun st => static <$> st = static <$> c_c c /\ Forall inRange st) (visited n c).
Proof.
  induction n as [|n IH]; intros c Hok Hle; [done|].
  cbn [visited]. rewrite seqZ_cons by lia. rewrite fmap_cons.
  replace (Z.pred (Z.of_nat (S n))) with (Z.of_nat n) by lia.
  destruct n as [|n].
  { simpl. split; [done|]. by repeat constructor. }
  destruct (increment_next c Hok) as (cs1 & E1 & Hst1 & Hok1 & Hv1); [lia|].
  destruct (IH (increment c)) as [IHa IHb].
  - by rewrite E1.
  - rewrite E1. simpl. rewrite Hv1, (space_static _ _ Hst1). lia.
  - rewrite E1 in IHa, IHb. cbn [c_c] in IHa, IHb. rewrite E1. split.
    + rewrite IHa, Hv1. f_equal.
    + constructor; [done|]. eapply Forall_impl; [exact IHb|].
      intros st [Hs Hr]. split; [by rewrite Hs|done].
Qed.

(** ** The odometer emulates the nested loops *)

Lemma fmap_bind {A B C} (f : B -> C) (g : A -> list B) (l : list A) :
  f <$> (l ≫= g) = l ≫= (fun x => f <$> g x).
Proof.
  induction l as [|x l IH]; [done|]. by rewrite !bind_cons, fmap_app, IH.
Qed.

Lemma seqZ_blocks (n : nat) (W : Z) :
  0 <= W ->
  seqZ 0 (Z.of_nat n) ≫= (fun v => seqZ (v * W) W) = seqZ 0 (Z.of_nat n * W).
Proof.
  intros HW. induction n as [|n IH]; [done|].
  rewrite seqZ_S, bind_app, IH. simpl. rewrite app_nil_r.
  replace (Z.of_nat (S n) * W) with (Z.of_nat n * W + W) by lia.
  rewrite seqZ_app by lia. done.
Qed.

Lemma combos_static cs : forall st, st ∈ combos cs -> static <$> st = static <$> cs.
Proof.
  induction cs as [|ec cs IH]; intros st Hst; simpl in Hst.
  - apply list_elem_of_singleton in Hst. by subst.
  - apply list_elem_of_bind in Hst as (v & Hst & _).
    apply list_elem_of_fmap in Hst as (st' & -> & Hst').
    rewrite !fmap_cons. f_equal. by apply IH.
Qed.

Lemma combos_inRange cs :
  Forall (fun ec => is_int (ec_dim ec)) cs ->
  forall st, st ∈ combos cs -> Forall inRange st.
Proof.
  induction 1 as [|ec cs Hd _ IH]; intros st Hst; simpl in Hst.
  - apply list_elem_of_singleton in Hst. by subst.
  - apply list_elem_of_bind in Hst as (v & Hst & Hv).
    apply list_elem_of_fmap in Hst as (st' & -> & Hst').
    apply elem_of_seqZ in Hv.
    constructor; [|by apply IH]. split; [done|].
    change (ext (setV ec v)) with (ext ec). unfold ext. simpl. lia.
Qed.

Lemma combos_value cs :
  Forall (fun ec => 1 <= ec_dim ec) cs ->
  radixValue <$> combos cs = seqZ 0 (space cs).
Proof.
  induction 1 as [|ec cs Hd _ IH]; [done|].
  cbn [combos space]. rewrite fmap_bind.
  pose proof (space_pos cs) as HW.
  assert (ext ec = ec_dim ec) as -> by (unfold ext; lia).
  rewrite <- (Z2Nat.id (ec_dim ec)) at 2 by lia.
  rewrite <- seqZ_blocks by lia. rewrite Z2Nat.id by lia.
  apply list_bind_ext; [|done]. intros v.
  replace (v * space cs) with (v * space cs + 0) by lia.
  rewrite <- fmap_add_seqZ, <- IH, <- !list_fmap_compose.
  apply Forall_fmap_ext, Forall_forall. intros st Hst. simpl.
  by rewrite (space_static st cs (combos_static cs st Hst)).
Qed.

Lemma radixValue_inj st : forall st',
  static <$> st = static <$> st' -> Forall inRange st -> Forall inRange st' ->
  radixValue st = radixValue st' -> st = st'.
Proof.
  induction st as [|ec st IH]; intros [|ec' st'] Hst Hok Hok' Hv; try done.
  inversion Hok as [|? ? [_ Hr] Hok1]; subst.
  inversion Hok' as [|? ? [_ Hr'] Hok1']; subst.
  simpl in Hst. injection Hst as H1 H2 H3 H4.
  pose proof (radixValue_bounds _ Hok1) as Hb.
  pose proof (radixValue_bounds _ Hok1') as Hb'.
  simpl in Hv. rewrite (space_static _ _ H4) in Hv, Hb.
  assert (ec_v ec = ec_v ec') as Hveq by nia.
  f_equal.
  - destruct ec, ec'; simpl in *; by subst.
  - apply IH; try done. nia.
Qed.

Lemma fmap_inj_on {A B} (f : A -> B) (P : A -> Prop) (l : list A) : forall l',
  (forall x y, P x -> P y -> f x = f y -> x = y) ->
  Forall P l -> Forall P l' -> f <$> l = f <$> l' -> l = l'.
Proof.
  induction l as [|x l IH]; intros [|y l'] Hinj Hl Hl' E; try done.
  inversion Hl; inversion Hl'; subst. simpl in E. injection E as E1 E2.
  f_equal; [by apply Hinj|by apply IH].
Qed.

(** From the all-zero state the drive loop visits exactly the
    combinations of the nested loops, in their order. *)
Lemma visited_combos c :
  Forall (fun ec => ec_v ec = 0) (c_c c) ->
  Forall (fun ec => is_int (ec_dim ec)) (c_c c) ->
  Forall (fun ec => 1 <= ec_dim ec) (c_c c) ->
  visited (Z.to_nat (space (c_c c))) c = combos (c_c c).
Proof.
  intros Hz Hi Hd. pose proof (zero_inRange _ Hz Hi) as Hok.
  pose proof (space_pos (c_c c)) as Hs.
  destruct (visited_spec (Z.to_nat (space (c_c c))) c Hok) as [Hv Hf].
  { rewrite (zero_radixValue _ Hz). lia. }
  rewrite (zero_radixValue _ Hz), Z2Nat.id in Hv by lia.
  apply (fmap_inj_on radixValue
           (fun st => static <$> st = static <$> c_c c /\ Forall inRange st)).
  - intros x y [Hx1 Hx2] [Hy1 Hy2] E. apply radixValue_inj; try done.
    by rewrite Hx1, Hy1.
  - done.
  - apply Forall_forall. intros st Hst.
    split; [by apply combos_static|by eapply combos_inRange].
  - by rewrite Hv, combos_value.
Qed.

(** ** The executor as built *)

Lemma fillFree_Forall (P : einsumCounter -> Prop) output : forall cs i cs',
  Forall P cs -> (forall r, P (mkCounter r true)) ->
  fillFree cs i output = Ok cs' -> Forall P cs'.
Proof.
  induction output as [|r output IH]; intros cs i cs' Hcs HP H; simpl in H.
  - by injection H as <-.
  - destruct (i <? length cs)%nat; [|done].
    eapply IH; [|done|exact H]. by apply Forall_insert.
Qed.

Lemma fillSummed_Forall (P : einsumCounter -> Prop) o keys : forall cs s cs',
  Forall P cs -> (forall r, P (mkCounter r false)) ->
  fillSummed o cs s keys = Ok cs' -> Forall P cs'.
Proof.
  induction keys as [|r keys IH]; intros cs s cs' Hcs HP H; simpl in H.
  - by injection H as <-.
  - destruct (mapGet (o_free o) r); [by eapply IH|].
    destruct (_ <? _)%nat; [|done].
    eapply IH; [|done|exact H]. by apply Forall_insert.
Qed.

Lemma fillFree_length output : forall cs i cs',
  fillFree cs i output = Ok cs' -> length cs' = length cs.
Proof.
  induction output as [|r output IH]; intros cs i cs' H; simpl in H.
  - by injection H as <-.
  - destruct (i <? length cs)%nat; [|done].
    rewrite (IH _ _ _ H). apply length_insert.
Qed.

Lemma fillSummed_length o keys : forall cs s cs',
  fillSummed o cs s keys = Ok cs' -> length cs' = length cs.
Proof.
  induction keys as [|r keys IH]; intros cs s cs' H; simpl in H.
  - by injection H as <-.
  - destruct (mapGet (o_free o) r); [by eapply IH|].
    destruct (_ <? _)%nat; [|done].
    rewrite (IH _ _ _ H). apply length_insert.
Qed.

(** The counter of the [j]-th output rune sits at index [i + j]. *)
Lemma fillFree_lookup output : forall cs i cs',
  fillFree cs i output = Ok cs' ->
  (forall k, (k < i)%nat -> cs' !! k = cs !! k) /\
  (forall j r, output !! j = Some r -> cs' !! (i + j)%nat = Some (mkCounter r true)).
Proof.
  induction output as [|r output IH]; intros cs i cs' H; simpl in H.
  - injection H as <-. split; [done|]. intros j r Hj. by destruct j.
  - destruct (Nat.ltb_spec i (length cs)) as [Hlt|]; [|done].
    destruct (IH _ _ _ H) as [IH1 IH2]. split.
    + intros k Hk. rewrite IH1 by lia. apply list_lookup_insert_ne. lia.
    + intros [|j] r' Hj.
      * simpl in Hj. injection Hj as <-. rewrite Nat.add_0_r, IH1 by lia.
        by apply list_lookup_insert_eq.
      * simpl in Hj. replace (i + S j)%nat with (S i + j)%nat by lia.
        by apply IH2.
Qed.

Lemma fillSummed_lookup o keys : forall cs s cs',
  fillSummed o cs s keys = Ok cs' ->
  forall k, (k < length (o_output o) + s)%nat -> cs' !! k = cs !! k.
Proof.
  induction keys as [|r keys IH]; intros cs s cs' H k Hk; simpl in H.
  - by injection H as <-.
  - destruct (mapGet (o_free o) r); [by eapply IH|].
    destruct (_ <? _)%nat; [|done].
    rewrite (IH _ _ _ H) by lia. apply list_lookup_insert_ne. lia.
Qed.

Lemma resolveDims_spec o operands cs : forall cs' outputDim,
  resolveDims o operands cs = Ok (cs', outputDim) ->
  Forall2 (fun ec ec' => exists dim, dimOf o (ec_r ec) operands = Ok dim /\
                                     ec' = setDim ec dim) cs cs' /\
  outputDim = ec_dim <$> filter (fun ec => ec_free ec = true) cs'.
Proof.
  induction cs as [|ec cs IH]; intros cs' od H; simpl in H.
  - by injection H as <- <-.
  - destruct (dimOf o (ec_r ec) operands) as [dim|] eqn:E; [|done]. simpl in H.
    destruct (resolveDims o operands cs) as [[rest' od']|]; [|done]. simpl in H.
    injection H as <- <-. destruct (IH _ _ eq_refl) as [IH1 IH2]. split.
    + constructor; [by exists dim|done].
    + destruct (ec_free ec) eqn:Ef.
      * rewrite filter_cons_True by done. by rewrite IH2.
      * rewrite filter_cons_False; [done|]. simpl. by rewrite Ef.
Qed.

Lemma dimOfLoop_int r operands inputs : forall i dim d,
  Forall int_dims operands -> is_int dim ->
  dimOfLoop r operands inputs i dim = Ok d -> is_int d.
Proof.
  induction inputs as [|input inputs IH]; intros i dim d Hops Hdim H; simpl in H.
  - by injection H as <-.
  - destruct (firstMatch r input) as [m|]; [|by eapply IH].
    destruct (matchedDim operands i m) as [v|] eqn:E; [|done]. simpl in H.
    assert (is_int v) as Hv.
    { rewrite Forall_lookup in Hops.
      destruct m as [|[|m]]; simpl in E; [| |done];
        destruct (operands !! i) as [M|] eqn:EM; try done;
        injection E as <-; by destruct (Hops _ _ EM). }
    destruct (dim =? 0); [by eapply (IH _ v)|].
    destruct (negb _); [done|]. by eapply (IH _ dim).
Qed.

Lemma dimOf_int o r operands d :
  Forall int_dims operands -> dimOf o r operands = Ok d -> is_int d.
Proof.
  intros Hops. apply dimOfLoop_int; [done|]. unfold is_int. lia.
Qed.

(** The executor starts with as many counters as there are runes, all at
    zero, with dimensions that are Go [int]s. *)
Lemma executor_spec rho o operands exc dim :
  executor rho o operands = Ok (exc, dim) ->
  c_done exc = false /\
  length (c_c exc) = size (o_all o) /\
  Forall (fun ec => ec_v ec = 0) (c_c exc) /\
  (Forall int_dims operands -> Forall (fun ec => is_int (ec_dim ec)) (c_c exc)) /\
  Forall (fun ec => dimOf o (ec_r ec) operands = Ok (ec_dim ec)) (c_c exc) /\
  dim = ec_dim <$> filter (fun ec => ec_free ec = true) (c_c exc).
Proof.
  unfold executor. intros H.
  destruct (fillFree _ _ _) as [cs0|] eqn:E0; [|done]. simpl in H.
  destruct (fillSummed _ _ _ _) as [cs1|] eqn:E1; [|done]. simpl in H.
  destruct (resolveDims _ _ _) as [[cs2 od]|] eqn:E2; [|done]. simpl in H.
  injection H as <- <-. simpl.
  destruct (resolveDims_spec _ _ _ _ _ E2) as [HF2 Hod].
  assert (Forall (fun ec => ec_v ec = 0) cs1) as Hz.
  { eapply fillSummed_Forall; [|done|exact E1].
    eapply fillFree_Forall; [|done|exact E0]. by apply Forall_replicate. }
  split; [done|]. split.
  { rewrite <- (Forall2_length _ _ _ HF2), (fillSummed_length _ _ _ _ _ E1),
      (fillFree_length _ _ _ _ E0). apply length_replicate. }
  split.
  { clear -HF2 Hz. induction HF2 as [|ec ec' cs cs' (d & _ & ->) _ IH]; [done|].
    inversion Hz; subst. constructor; [done|by apply IH]. }
  split.
  { intros Hops. clear -HF2 Hops.
    induction HF2 as [|ec ec' cs cs' (d & Hd & ->) _ IH]; [done|].
    constructor; [|done]. simpl. by eapply dimOf_int. }
  split; [|done].
  clear -HF2. induction HF2 as [|ec ec' cs cs' (d & Hd & ->) _ IH]; [done|].
  constructor; [|done]. done.
Qed.

(** The counters of the output runes are free and come first; with an
    empty output no counter is free. *)
Lemma executor_free rho o operands exc dim :
  executor rho o operands = Ok (exc, dim) ->
  (forall j r, o_output o !! j = Some r ->
     exists ec, c_c exc !! j = Some ec /\ ec_free ec = true /\ ec_r ec = r) /\
  (o_output o = [] -> Forall (fun ec => ec_free ec = false) (c_c exc)).
Proof.
  unfold executor. intros H.
  destruct (fillFree _ _ _) as [cs0|] eqn:E0; [|done]. simpl in H.
  destruct (fillSummed _ _ _ _) as [cs1|] eqn:E1; [|done]. simpl in H.
  destruct (resolveDims _ _ _) as [[cs2 od]|] eqn:E2; [|done]. simpl in H.
  injection H as <- <-. simpl.
  destruct (resolveDims_spec _ _ _ _ _ E2) as [HF2 _]. split.
  - intros j r Hj.
    destruct (fillFree_lookup _ _ _ _ E0) as [_ H0]. specialize (H0 j r Hj).
    simpl in H0.
    assert (cs1 !! j = Some (mkCounter r true)) as H1.
    { rewrite (fillSummed_lookup _ _ _ _ _ E1); [done|].
      apply lookup_lt_Some in Hj. lia. }
    destruct (Forall2_lookup_l _ _ _ _ _ HF2 H1) as (ec' & Hec' & d & _ & ->).
    by exists (setDim (mkCounter r true) d).
  - intros Hout. rewrite Hout in E0. simpl in E0. injection E0 as <-.
    assert (Forall (fun ec => ec_free ec = false) cs1) as H1.
    { eapply fillSummed_Forall; [|done|exact E1]. by apply Forall_replicate. }
    clear -HF2 H1. induction HF2 as [|ec ec' cs cs' (d & _ & ->) _ IH]; [done|].
    inversion H1; subst. constructor; [done|by apply IH].
Qed.

(** ** Dimension resolution *)

Lemma firstMatch_None r input : r ∉ input -> firstMatch r input = None.
Proof.
  induction input as [|x input IH]; intros H; [done|]. simpl.
  apply not_elem_of_cons in H as [Hne Hin].
  destruct (Z.eqb_spec x r); [congruence|]. by rewrite IH.
Qed.

(** A rune that no input mentions resolves to the extent 0, without a
    panic. *)
Lemma dimOfLoop_unbound r operands inputs : forall i dim,
  (forall input, input ∈ inputs -> r ∉ input) ->
  dimOfLoop r operands inputs i dim = Ok dim.
Proof.
  induction inputs as [|input inputs IH]; intros i dim H; [done|]. simpl.
  rewrite firstMatch_None by (apply H; constructor).
  apply IH. intros w Hw. apply H. by constructor.
Qed.

Lemma dimOf_unbound o r operands :
  (forall input, input ∈ o_inputs o -> r ∉ input) -> dimOf o r operands = Ok 0.
Proof. apply dimOfLoop_unbound. Qed.

(** ** The drive loop *)

Lemma outputZeros_nil : outputZeros [] = Ok [0%float].
Proof. done. Qed.

Lemma mul64_fold_zero l : fold_left mul64 l 0 = 0.
Proof. induction l as [|x l IH]; [done|]. simpl. exact IH. Qed.

Lemma mul64_fold_elem_zero l : forall a, 0 ∈ l -> fold_left mul64 l a = 0.
Proof.
  induction l as [|x l IH]; intros a H; [by apply elem_of_nil in H|].
  apply elem_of_cons in H as [<-|H]; simpl.
  - unfold mul64 at 2. rewrite Z.mul_0_r. apply mul64_fold_zero.
  - by apply IH.
Qed.

Lemma body_empty_out ops operands exc :
  exists e, body ops operands exc [] = Panic e.
Proof.
  unfold body. destruct (product _ _ _ _ _) as [cur|e]; simpl; [|by exists e].
  unfold accumulate. cbn [length]. change (Z.of_nat 0) with 0.
  destruct (Z.leb_spec 0 (outputIdx exc)); cbn [andb]; [|by eexists].
  destruct (Z.ltb_spec (outputIdx exc) 0); [lia|by eexists].
Qed.

Lemma loop_nil fuel ops operands exc : forall out res,
  c_c exc = [] -> c_done exc = false ->
  loop fuel ops operands exc out <> Some (Ok res).
Proof.
  induction fuel as [|fuel IH]; intros out res Hc Hd; simpl; rewrite Hd; [done|].
  destruct (body ops operands exc out); [|done].
  rewrite increment_nil by done. by apply IH.
Qed.

Lemma loop_nil_forever fuel ops exc : forall out,
  c_c exc = [] -> c_done exc = false -> length out = 1%nat ->
  loop fuel ops [] exc out = None.
Proof.
  induction fuel as [|fuel IH]; intros out Hc Hd Hlen; simpl; rewrite Hd; [done|].
  unfold body, outputIdx. rewrite Hc. simpl. unfold accumulate. rewrite Hlen. simpl.
  rewrite increment_nil by done. apply IH; try done. by rewrite length_insert.
Qed.

Lemma done_false_eta c : c_done c = false -> c = {| c_c := c_c c; c_done := false |}.
Proof. destruct c. simpl. by intros ->. Qed.

Lemma loop_done fuel ops operands exc out :
  c_done exc = true -> loop fuel ops operands exc out = Some (Ok out).
Proof. intros H. destruct fuel; simpl; by rewrite H. Qed.

(** With enough fuel the drive loop takes as many turns as points are
    left in the iteration space, then stops. *)
Lemma loop_run ops operands n : forall c out fuel,
  c_done c = false -> Forall inRange (c_c c) -> c_c c <> [] ->
  radixValue (c_c c) + Z.of_nat n = space (c_c c) -> (n <= fuel)%nat ->
  loop fuel ops operands c out = Some (runStates ops operands (visited n c) out).
Proof.
  induction n as [|n IH]; intros c out fuel Hd Hok Hne Hv Hfuel.
  { pose proof (radixValue_bounds _ Hok). lia. }
  destruct fuel as [|fuel]; [lia|].
  cbn [loop visited runStates]. rewrite Hd, <- (done_false_eta c Hd).
  destruct (body ops operands c out) as [out'|e]; [|done]. cbn [bind].
  destruct n as [|n].
  - simpl. apply loop_done. apply increment_last; [done|lia|done].
  - destruct (increment_next c Hok) as (cs1 & E1 & Hst1 & Hok1 & Hv1); [lia|].
    apply IH.
    + by rewrite E1.
    + by rewrite E1.
    + rewrite E1. simpl. by eapply static_nil.
    + rewrite E1. simpl. rewrite Hv1, (space_static _ _ Hst1). lia.
    + lia.
Qed.

Lemma Einsum_unbound_output lt rho s o r operands fuel :
  parseEinsum lt s = Ok o -> r ∈ o_output o ->
  (forall input, input ∈ o_inputs o -> r ∉ input) ->
  exists e, Einsum lt (S fuel) rho s operands = Some (Panic e).
Proof.
  intros Hp Hr Hin. unfold Einsum, setup. rewrite Hp. cbn [bind].
  destruct (executor rho o operands) as [[exc dim]|e] eqn:E; [|by exists e].
  cbn [bind].
  destruct (executor_spec _ _ _ _ _ E) as (Hd & _ & _ & _ & Hdims & Hdim).
  destruct (executor_free _ _ _ _ _ E) as [Hfree _].
  apply list_elem_of_lookup in Hr as [j Hj].
  destruct (Hfree j r Hj) as (ec & Hec & Hf & Hrune).
  assert (ec_dim ec = 0) as Hz.
  { rewrite Forall_lookup in Hdims. specialize (Hdims _ _ Hec). cbv beta in Hdims.
    rewrite Hrune, (dimOf_unbound o r operands Hin) in Hdims. congruence. }
  assert (0 ∈ dim) as H0.
  { rewrite Hdim, <- Hz. apply list_elem_of_fmap_2, list_elem_of_filter.
    split; [done|]. by eapply list_elem_of_lookup_2. }
  unfold outputZeros. rewrite (mul64_fold_elem_zero dim 1 H0). simpl.
  rewrite Hd. destruct (body_empty_out o operands exc) as [e ->]. by exists e.
Qed.

(** C6 (amended): when a letter of the output occurs in no operand letter
    sequence, dimension resolution gives it the extent 0 without an
    error, and evaluation aborts: the output buffer is empty, and the
    first turn of the drive loop panics, if nothing panicked before. *)
Theorem unbound_output_aborts lt rho s o r operands :
  parseEinsum lt s = Ok o -> r ∈ o_output o ->
  (forall input, input ∈ o_inputs o -> r ∉ input) ->
  dimOf o r operands = Ok 0 /\
  forall fuel, (1 <= fuel)%nat ->
    exists e, Einsum lt fuel rho s operands = Some (Panic e).
Proof.
  intros Hp Hr Hin. split; [by apply dimOf_unbound|].
  intros [|fuel] Hfuel; [lia|]. by eapply Einsum_unbound_output.
Qed.

Lemma unbound_output_witness :
  dimOf {| o_seq := runes "i->j"; o_all := {[ 105 := true; 106 := true ]};
           o_free := {[ 106 := true ]}; o_inputs := [[105]]; o_output := [106] |}
        106 [NewVecDense 2 [1; 2]%float] = Ok 0 /\
  exists e, Einsum noTable 1 rho_keys (runes "i->j") [NewVecDense 2 [1; 2]%float]
            = Some (Panic e).
Proof.
  assert (parseEinsum noTable (runes "i->j") =
          Ok {| o_seq := runes "i->j"; o_all := {[ 105 := true; 106 := true ]};
                o_free := {[ 106 := true ]}; o_inputs := [[105]];
                o_output := [106] |}) as Hp by (by vm_compute).
  destruct (unbound_output_aborts noTable rho_keys _ _ 106
              [NewVecDense 2 [1; 2]%float] Hp) as [H1 H2].
  - simpl. by constructor.
  - simpl. intros input Hi. apply list_elem_of_singleton in Hi. subst.
    intros Hj. apply list_elem_of_singleton in Hj. discriminate Hj.
  - split; [exact H1|]. apply H2. lia.
Defined.

Lemma unbound_output_counterexample :
  Einsum noTable 1 rho_keys (runes "i->j") [NewVecDense 2 [1; 2]%float]
  = Some (Panic IndexOutOfRange) /\
  reported IndexOutOfRange = false /\
  exists o, parseEinsum noTable (runes "i->j") = Ok o /\
            dimOf o 106 [NewVecDense 2 [1; 2]%float] = Ok 0.
Proof.
  split; [by vm_compute|]. split; [done|].
  eexists. split; [by vm_compute|]. by vm_compute.
Qed.

Lemma no_keys_size (m : gmap Z bool) :
  (forall r, ~ is_Some (m !! r)) -> size m = 0%nat.
Proof.
  intros H. apply map_size_empty_iff, map_empty. intros r.
  apply eq_None_not_Some, H.
Qed.

Lemma key_size (m : gmap Z bool) r : is_Some (m !! r) -> size m <> 0%nat.
Proof.
  intros [b Hr] Hs. apply map_size_empty_iff in Hs. subst.
  by rewrite lookup_empty in Hr.
Qed.

Lemma Einsum_not_Ok_S lt fuel rho s operands e :
  Einsum lt (S fuel) rho s operands = Some (Panic e) ->
  forall res, Einsum lt fuel rho s operands <> Some (Ok res).
Proof.
  intros H res H'. apply Einsum_mono with (fuel' := S fuel) in H'; [|lia].
  congruence.
Qed.

(** C7 (amended): a subscript with zero operands, such as the empty
    string, parses without error; the call still never returns a result,
    whatever operands are passed. *)
Theorem zero_operands_no_result lt :
  parseEinsum lt [] = Ok emptyOps /\
  forall rho s o operands fuel res,
    parseEinsum lt s = Ok o -> o_inputs o = [] ->
    Einsum lt fuel rho s operands <> Some (Ok res).
Proof.
  split; [done|]. intros rho s o operands fuel res Hp Hin.
  destruct (o_output o) as [|r out] eqn:Eout.
  - destruct (parseEinsum_recorded lt s o Hp) as [Hall _].
    unfold Einsum, setup. rewrite Hp. cbn [bind].
    destruct (executor rho o operands) as [[exc dim]|e] eqn:E; [|done].
    cbn [bind]. destruct (outputZeros dim) as [out0|]; [|done]. cbn [bind].
    destruct (executor_spec _ _ _ _ _ E) as (Hd & Hlen & _).
    assert (c_c exc = []) as Hnil.
    { apply length_zero_iff_nil. rewrite Hlen. apply no_keys_size.
      intros x Hx. apply Hall in Hx. rewrite Hin, Eout in Hx. simpl in Hx.
      destruct Hx as [Hx|Hx]; by apply elem_of_nil in Hx. }
    pose proof (loop_nil fuel o operands exc out0) as Hl.
    destruct (loop fuel o operands exc out0) as [[out'|]|]; try done.
    by destruct (Hl out' Hnil Hd).
  - destruct (Einsum_unbound_output lt rho s o r operands fuel Hp) as [e He].
    + rewrite Eout. by constructor.
    + intros input Hi. rewrite Hin in Hi. by apply elem_of_nil in Hi.
    + by eapply Einsum_not_Ok_S.
Qed.

Lemma zero_operands_no_result_witness :
  Einsum noTable 3 rho_keys (runes "") [] <> Some (Ok ([], [3%float])).
Proof.
  destruct (zero_operands_no_result noTable) as [_ H].
  apply (H rho_keys (runes "") emptyOps); reflexivity.
Defined.

Lemma zero_operands_counterexample :
  parseEinsum noTable (runes "") = Ok emptyOps /\
  ~ (exists e, parseEinsum noTable (runes "") = Panic e).
Proof. split; [reflexivity|]. intros [e He]. discriminate He. Qed.

(** ** Termination of the drive loop *)

Lemma parseLoop_letterless lt s : forall o mode o',
  (forall r, r ∈ s -> indexLetter lt r = false) ->
  parseLoop lt o mode s = Ok o' -> o_inputs o' = o_inputs o.
Proof.
  induction s as [|r s IH]; intros o mode o' Hno H; simpl in H.
  - by injection H as <-.
  - destruct (parseRune lt o mode r) as [[o1 mode1]|] eqn:E; [|done].
    simpl in H. rewrite (IH _ _ _ (fun x Hx => Hno x (list_elem_of_further _ _ _ Hx)) H).
    pose proof (Hno r (list_elem_of_here _ _)) as Hr.
    unfold parseRune in E.
    destruct (r =? comma); [by injection E as <- <-|].
    destruct (r =? dash); [by injection E as <- <-|].
    destruct (r =? gt).
    { destruct (negb _); [done|]. by injection E as <- <-. }
    unfold indexLetter in Hr.
    destruct (IsSpace r); [by injection E as <- <-|].
    simpl in Hr. by rewrite Hr in E.
Qed.


(** C9 (amended): when the subscript has an index letter, the counter
    sequence is not empty, iterated [increment] sets the done flag and the
    drive loop ends; when it has none, the counter sequence is empty,
    [increment] never sets the done flag and the loop never exits
    normally: with no operands it runs forever, with operands its first
    turn panics. *)
Theorem drive_loop_exit lt rho s o operands exc dim :
  parseEinsum lt s = Ok o -> executor rho o operands = Ok (exc, dim) ->
  Forall int_dims operands ->
  ((exists r, r ∈ s /\ indexLetter lt r = true) ->
     c_c exc <> [] /\
     exists n, c_done (incrementN n exc) = true /\
       forall fuel, (n <= fuel)%nat -> Einsum lt fuel rho s operands <> None) /\
  ((forall r, r ∈ s -> indexLetter lt r = false) ->
     c_c exc = [] /\
     (forall n, c_done (incrementN n exc) = false) /\
     (forall fuel res, Einsum lt fuel rho s operands <> Some (Ok res)) /\
     (operands = [] -> forall fuel, Einsum lt fuel rho s operands = None) /\
     (operands <> [] -> forall fuel, (1 <= fuel)%nat ->
        Einsum lt fuel rho s operands = Some (Panic IndexOutOfRange))).
Proof.
  intros Hp He Hops.
  destruct (executor_spec _ _ _ _ _ He) as (Hd & Hlen & Hz & Hint & _ & Hdim).
  specialize (Hint Hops). pose proof (zero_inRange _ Hz Hint) as Hok.
  pose proof (parseEinsum_all lt s o Hp) as Hall.
  split.
  - intros (r & Hr & Hl).
    assert (c_c exc <> []) as Hne.
    { intros E. rewrite E in Hlen. simpl in Hlen.
      apply (key_size (o_all o) r); [|done]. by apply Hall. }
    split; [done|].
    exists (Z.to_nat (space (c_c exc) - radixValue (c_c exc))).
    split; [by apply incrementN_done|].
    intros fuel Hfuel. unfold Einsum, setup. rewrite Hp. cbn [bind].
    rewrite He. cbn [bind]. destruct (outputZeros dim) as [out|]; [|done].
    cbn [bind]. pose proof (radixValue_bounds _ Hok).
    rewrite (loop_run o operands
               (Z.to_nat (space (c_c exc) - radixValue (c_c exc)))
               exc out fuel Hd Hok Hne); [|lia|done].
    by destruct (runStates _ _ _ _).
  - intros Hno.
    assert (c_c exc = []) as Hnil.
    { apply length_zero_iff_nil. rewrite Hlen. apply no_keys_size.
      intros x Hx. apply Hall in Hx as [Hx Hl]. by rewrite (Hno x Hx) in Hl. }
    split; [done|]. split.
    { intros n. by rewrite incrementN_nil. }
    assert (dim = []) as -> by (by rewrite Hdim, Hnil).
    split; [|split].
    + intros fuel res. unfold Einsum, setup. rewrite Hp. cbn [bind].
      rewrite He. cbn [bind]. rewrite outputZeros_nil. cbn [bind].
      pose proof (loop_nil fuel o operands exc [0%float]) as Hl.
      destruct (loop fuel o operands exc _) as [[out'|]|]; try done.
      by destruct (Hl out' Hnil Hd).
    + intros -> fuel. unfold Einsum, setup. rewrite Hp. cbn [bind].
      rewrite He. cbn [bind]. rewrite outputZeros_nil. cbn [bind].
      by rewrite loop_nil_forever.
    + intros Hne [|fuel] Hfuel; [lia|].
      unfold Einsum, setup. rewrite Hp. cbn [bind].
      rewrite He. cbn [bind]. rewrite outputZeros_nil. cbn [bind loop].
      rewrite Hd. unfold body.
      destruct operands as [|M operands]; [done|]. cbn [product].
      by rewrite (parseLoop_letterless lt s _ _ o Hno Hp).
Qed.

Lemma drive_loop_exit_witness :
  (exists n, forall fuel, (n <= fuel)%nat ->
     Einsum noTable fuel rho_keys (runes "ik,kj->ij") [B22; C22] <> None) /\
  (forall fuel, Einsum noTable fuel rho_keys (runes "") [] = None).
Proof.
  split.
  - edestruct (drive_loop_exit noTable rho_keys (runes "ik,kj->ij"))
      with (operands := [B22; C22]) as [H _].
    + by vm_compute.
    + by vm_compute.
    + repeat constructor; by vm_compute.
    + destruct H as (_ & n & _ & Hn); [|by exists n].
      exists 105. split; [|done]. by repeat constructor.
  - edestruct (drive_loop_exit noTable rho_keys (runes ""))
      with (operands := @nil Matrix) as [_ H].
    + by vm_compute.
    + by vm_compute.
    + constructor.
    + destruct H as (_ & _ & _ & Hn & _); [|by apply Hn].
      intros r Hr. by apply elem_of_nil in Hr.
Defined.

Lemma drive_loop_counterexample :
  (forall r, r ∈ runes "" -> indexLetter noTable r = false) /\
  Einsum noTable 5 rho_keys (runes "") [B22] = Some (Panic IndexOutOfRange).
Proof.
  split; [|by vm_compute]. intros r Hr. by apply elem_of_nil in Hr.
Qed.

(** ** The odometer *)

(** From the all-zero state of a non-empty counter sequence with extents
    of at least 1, the drive loop visits the combinations of the nested
    loops, each once and in lexicographic order, as many as the product of
    the extents, and [increment] sets the done flag with the call after
    the last of them, not before. *)
Lemma odometer_visits c :
  c_c c <> [] -> c_done c = false ->
  Forall (fun ec => ec_v ec = 0) (c_c c) ->
  Forall (fun ec => is_int (ec_dim ec)) (c_c c) ->
  Forall (fun ec => 1 <= ec_dim ec) (c_c c) ->
  let N := Z.to_nat (space (c_c c)) in
  visited N c = combos (c_c c) /\
  NoDup (combos (c_c c)) /\ length (combos (c_c c)) = N /\
  radixValue <$> combos (c_c c) = seqZ 0 (space (c_c c)) /\
  (forall k, (k < N)%nat -> c_done (incrementN k c) = false) /\
  c_done (incrementN N c) = true.
Proof.
  intros Hne Hd Hz Hi Hdim N. pose proof (zero_inRange _ Hz Hi) as Hok.
  pose proof (combos_value _ Hdim) as Hv.
  pose proof (zero_radixValue _ Hz) as H0.
  split; [by apply visited_combos|]. split.
  { apply (NoDup_fmap_1 radixValue). rewrite Hv. apply NoDup_seqZ. }
  split.
  { rewrite <- (length_fmap radixValue), Hv. apply length_seqZ. }
  split; [done|]. split.
  - intros k Hk.
    destruct (incrementN_spec k c Hok) as (cs' & -> & _); [lia|done].
  - pose proof (incrementN_done c Hok Hne) as H. by rewrite H0, Z.sub_0_r in H.
Qed.

Lemma range_order_empty rho : range_order rho -> rho ∅ = [].
Proof.
  intros H. specialize (H ∅). rewrite map_to_list_empty in H.
  by apply Permutation_nil_r in H.
Qed.

(** C2, at an empty counter sequence: its one (empty) combination is
    visited again and again, and no number of calls of [increment] sets
    the done flag; [Einsum] on the empty subscript never returns. *)
Theorem odometer_empty_never_done lt rho :
  range_order rho ->
  let c := {| c_c := []; c_done := false |} in
  space (c_c c) = 1 /\ combos (c_c c) = [[]] /\
  (forall n, visited n c = replicate n [] /\ c_done (incrementN n c) = false) /\
  (forall fuel, Einsum lt fuel rho [] [] = None).
Proof.
  intros Hrho c. split; [done|]. split; [done|]. split.
  - intros n. split; [|by rewrite incrementN_nil].
    induction n as [|n IH]; [done|]. simpl. by rewrite <- IH.
  - intros fuel. unfold Einsum, setup.
    change (parseEinsum lt []) with (Ok emptyOps). cbn [bind].
    assert (executor rho emptyOps [] = Ok (c, [])) as ->.
    { unfold executor. simpl. by rewrite (range_order_empty rho Hrho). }
    cbn [bind]. rewrite outputZeros_nil. cbn [bind]. by rewrite loop_nil_forever.
Qed.

Lemma odometer_empty_witness :
  range_order rho_keys /\
  (forall fuel, Einsum noTable fuel rho_keys [] [] = None).
Proof.
  split; [apply rho_keys_order|].
  apply (odometer_empty_never_done noTable rho_keys rho_keys_order).
Defined.

(** ** Subscripts without a marker *)

Lemma parseLoop_plain lt s : forall o mode,
  mode <> opsParseModeOutput ->
  (mode = opsParseModeGrowInput -> o_inputs o <> []) ->
  Forall (plain lt) s ->
  exists o', parseLoop lt o mode s = Ok o' /\
             o_output o' = o_output o /\ o_free o' = o_free o.
Proof.
  induction s as [|r s IH]; intros o mode Hmode Hgrow Hs; [by exists o|].
  inversion Hs as [|? ? Hr Hs']; subst. cbn [parseLoop].
  destruct Hr as [->|[Hsp|Hl]].
  - rewrite parseRune_comma. cbn [bind].
    destruct (IH (appendSeq o comma) opsParseModeNewInput) as (o' & -> & Ho & Hf);
      try done.
    by exists o'.
  - rewrite parseRune_space by done. cbn [bind]. by apply IH.
  - rewrite parseRune_letter by done. destruct mode; [| |done].
    + simpl.
      destruct (IH (appendSeq (setInputs (markAll o r) (o_inputs o ++ [[r]])) r)
                  opsParseModeGrowInput) as (o' & -> & Ho & Hf); try done.
      { intros _. simpl. by destruct (o_inputs o). }
      by exists o'.
    + destruct (o_inputs o) as [|w ws _] eqn:E using rev_ind; [by destruct Hgrow|].
      rewrite (slot_grow _ ws w) by done. cbn [bind].
      destruct (IH (appendSeq (setInputs (markAll o r) (ws ++ [w ++ [r]])) r)
                  opsParseModeGrowInput) as (o' & -> & Ho & Hf); try done.
      { intros _. simpl. by destruct ws. }
      by exists o'.
Qed.

Lemma outputIdxLoop_summed rcs : forall idx jump,
  Forall (fun ec => ec_free ec = false) rcs -> outputIdxLoop rcs idx jump = idx.
Proof.
  induction rcs as [|ec rcs IH]; intros idx jump H; [done|].
  inversion H as [|? ? Hf H']; subst. simpl. rewrite Hf. simpl. by apply IH.
Qed.

Lemma outputIdx_summed c :
  Forall (fun ec => ec_free ec = false) (c_c c) -> outputIdx c = 0.
Proof.
  intros H. unfold outputIdx. apply outputIdxLoop_summed.
  by apply List.Forall_rev.
Qed.

Lemma static_summed st cs :
  static <$> st = static <$> cs ->
  Forall (fun ec => ec_free ec = false) cs ->
  Forall (fun ec => ec_free ec = false) st.
Proof.
  revert cs. induction st as [|ec st IH]; intros [|ec' cs] H Hcs; try done.
  inversion Hcs as [|? ? Hf Hcs']; subst. simpl in H. injection H as E1 E2 E3 E4.
  constructor; [congruence|by eapply IH].
Qed.

Lemma runStates_scalar ops operands sts : forall acc,
  Forall (Forall (fun ec => ec_free ec = false)) sts ->
  runStates ops operands sts [acc]
  = (x <- sumOver ops operands sts acc ;; Ok [x]).
Proof.
  induction sts as [|st sts IH]; intros acc H; [done|].
  inversion H as [|? ? Hst H']; subst. cbn [runStates sumOver].
  unfold body. rewrite outputIdx_summed by done.
  destruct (product _ _ _ _ _) as [cur|]; [|done]. cbn [bind].
  change (accumulate [acc] 0 cur) with (Ok [PrimFloat.add acc cur]). cbn [bind].
  by apply IH.
Qed.

Lemma filter_free_summed cs :
  Forall (fun ec => ec_free ec = false) cs ->
  filter (fun ec => ec_free ec = true) cs = [].
Proof.
  induction 1 as [|ec cs Hf _ IH]; [done|].
  rewrite filter_cons_False; [done|]. by rewrite Hf.
Qed.

(** C10: a subscript made of operand letter sequences, without a marker,
    parses to a specification with an empty output in which no letter is
    free; when dimension resolution succeeds with extents of at least 1
    and every element access is in bounds, evaluation returns the empty
    shape and a buffer of one element, the sum over all index
    combinations. *)
Theorem no_marker_scalar lt s :
  Forall (plain lt) s -> Exists (fun r => indexLetter lt r = true) s ->
  exists o, parseEinsum lt s = Ok o /\ o_output o = [] /\
    (forall r, mapGet (o_free o) r = false) /\
    forall rho operands exc dim x,
      Forall int_dims operands -> executor rho o operands = Ok (exc, dim) ->
      Forall (fun ec => 1 <= ec_dim ec) (c_c exc) ->
      scalarSum o operands (c_c exc) = Ok x ->
      Forall (fun ec => ec_free ec = false) (c_c exc) /\ dim = [] /\
      forall fuel, (Z.to_nat (space (c_c exc)) <= fuel)%nat ->
        Einsum lt fuel rho s operands = Some (Ok ([], [x])).
Proof.
  intros Hs Hex.
  destruct (parseLoop_plain lt s emptyOps opsParseModeNewInput) as (o & Hp & Ho & Hf);
    try done.
  exists o. split; [done|]. split; [done|]. split.
  { intros r. rewrite Hf. unfold mapGet. simpl. by rewrite lookup_empty. }
  intros rho operands exc dim x Hops He Hdims Hsum.
  destruct (executor_spec _ _ _ _ _ He) as (Hd & Hlen & Hz & Hint & _ & Hdim).
  destruct (executor_free _ _ _ _ _ He) as [_ Hsummed].
  specialize (Hint Hops). specialize (Hsummed Ho).
  pose proof (zero_inRange _ Hz Hint) as Hok.
  assert (dim = []) as -> by (by rewrite Hdim, filter_free_summed).
  split; [done|]. split; [done|]. intros fuel Hfuel.
  assert (c_c exc <> []) as Hne.
  { apply Exists_exists in Hex as (r & Hr & Hl).
    intros E. rewrite E in Hlen. simpl in Hlen.
    apply (key_size (o_all o) r); [|done].
    by apply (parseEinsum_all lt s o Hp). }
  unfold Einsum, setup. unfold parseEinsum in Hp |- *. rewrite Hp. cbn [bind].
  rewrite He. cbn [bind]. rewrite outputZeros_nil. cbn [bind].
  rewrite (loop_run o operands (Z.to_nat (space (c_c exc))) exc [0%float] fuel
             Hd Hok Hne); [| |done].
  2:{ rewrite (zero_radixValue _ Hz). pose proof (space_pos (c_c exc)). lia. }
  rewrite visited_combos by done. rewrite runStates_scalar.
  - unfold scalarSum in Hsum. by rewrite Hsum.
  - apply Forall_forall. intros st Hst.
    eapply static_summed; [by apply combos_static|done].
Qed.

Lemma no_marker_scalar_witness :
  Einsum noTable 2 rho_keys (runes "i, i") [vecA; vecB]
  = Some (Ok ([], [11%float])).
Proof.
  destruct (no_marker_scalar noTable (runes "i, i")) as (o & Hp & _ & _ & H).
  - repeat constructor; (by left) || (by right; left) || (by right; right).
  - by constructor.
  - vm_compute in Hp. injection Hp as <-.
    edestruct (H rho_keys [vecA; vecB]) as (_ & _ & Hrun).
    + repeat constructor; by vm_compute.
    + by vm_compute.
    + repeat constructor. by vm_compute.
    + by vm_compute.
    + apply Hrun. vm_compute. lia.
Defined.

(** ** The output shape *)

Lemma fillFree_take output : forall cs i cs',
  fillFree cs i output = Ok cs' ->
  cs' = take i cs ++ ((fun r => mkCounter r true) <$> output)
          ++ drop (i + length output) cs.
Proof.
  induction output as [|r output IH]; intros cs i cs' H; simpl in H.
  - injection H as <-. simpl. by rewrite Nat.add_0_r, take_drop.
  - destruct (Nat.ltb_spec i (length cs)) as [Hlt|]; [|done].
    rewrite (IH _ _ _ H).
    rewrite (take_S_r _ _ (mkCounter r true)) by (by apply list_lookup_insert_eq).
    rewrite take_insert_ge by lia. rewrite drop_insert_lt by lia.
    rewrite <- app_assoc. simpl. do 3 f_equal. by rewrite Nat.add_succ_r.
Qed.

Lemma fillSummed_take o keys : forall cs s cs',
  fillSummed o cs s keys = Ok cs' ->
  take (length (o_output o)) cs' = take (length (o_output o)) cs /\
  (Forall (fun ec => ec_free ec = false) (drop (length (o_output o)) cs) ->
   Forall (fun ec => ec_free ec = false) (drop (length (o_output o)) cs')).
Proof.
  induction keys as [|r keys IH]; intros cs s cs' H; simpl in H.
  - by injection H as <-.
  - destruct (mapGet (o_free o) r); [by eapply IH|].
    destruct (_ <? _)%nat; [|done].
    destruct (IH _ _ _ H) as [IH1 IH2]. split.
    + rewrite IH1. apply take_insert_ge. lia.
    + intros Hd. apply IH2. rewrite drop_insert_ge by lia.
      by apply Forall_insert.
Qed.

(** The shape has one entry per output letter, the extent that the
    letter resolves to. *)
Lemma executor_shape rho o operands exc dim :
  executor rho o operands = Ok (exc, dim) ->
  Forall2 (fun r d => dimOf o r operands = Ok d) (o_output o) dim.
Proof.
  unfold executor. intros H.
  destruct (fillFree _ _ _) as [cs0|] eqn:E0; [|done]. simpl in H.
  destruct (fillSummed _ _ _ _) as [cs1|] eqn:E1; [|done]. simpl in H.
  destruct (resolveDims _ _ _) as [[cs2 od]|] eqn:E2; [|done]. simpl in H.
  injection H as <- <-.
  destruct (resolveDims_spec _ _ _ _ _ E2) as [HF2 ->].
  apply fillFree_take in E0. simpl in E0.
  destruct (fillSummed_take _ _ _ _ _ E1) as [Ht Hd].
  set (L := length (o_output o)) in *.
  assert (take L cs1 = (fun r => mkCounter r true) <$> o_output o) as Htake.
  { rewrite Ht, E0. apply take_app_length'. by rewrite length_fmap. }
  assert (Forall (fun ec => ec_free ec = false) (drop L cs1)) as Hdrop.
  { apply Hd. rewrite E0, drop_app_length' by (by rewrite length_fmap).
    rewrite drop_replicate. by apply Forall_replicate. }
  rewrite <- (take_drop L cs1), Htake in HF2.
  apply Forall2_app_inv_l in HF2 as (A & B & HA & HB & ->).
  rewrite filter_app, fmap_app.
  assert (filter (fun ec => ec_free ec = true) B = []) as ->.
  { apply filter_free_summed. clear -HB Hdrop.
    induction HB as [|ec ec' cs cs' (d & _ & ->) _ IH]; [done|].
    inversion Hdrop; subst. constructor; [done|by apply IH]. }
  rewrite app_nil_r. clear -HA. revert A HA.
  induction (o_output o) as [|r out IH]; intros A HA.
  - by inversion HA.
  - inversion HA as [|? ec' ? A' (d & Hdim & ->) HA']; subst.
    rewrite filter_cons_True by done. rewrite fmap_cons.
    constructor; [done|by apply IH].
Qed.

Lemma dimOf_shape_unique o operands output : forall dim dim',
  Forall2 (fun r d => dimOf o r operands = Ok d) output dim ->
  Forall2 (fun r d => dimOf o r operands = Ok d) output dim' ->
  dim = dim'.
Proof.
  induction output as [|r out IH]; intros dim dim' H H'.
  - inversion H. by inversion H'.
  - inversion H; inversion H'; subst. f_equal; [congruence|by apply IH].
Qed.

(** ** Two calls *)

(** C8 (amended): two calls with the same subscript and operands that
    both return have the same shape; the values are the same when the two
    calls range over the summed keys of the map in the same order, and so
    in particular when at most one letter is summed. *)
Theorem einsum_two_calls lt rho rho' s operands fuel fuel' dim out dim' out' :
  range_order rho -> range_order rho' ->
  Einsum lt fuel rho s operands = Some (Ok (dim, out)) ->
  Einsum lt fuel' rho' s operands = Some (Ok (dim', out')) ->
  dim = dim' /\
  ((forall o, parseEinsum lt s = Ok o ->
      filter (summedKey o) (rho (o_all o)) = filter (summedKey o) (rho' (o_all o))) ->
   out = out') /\
  ((forall o, parseEinsum lt s = Ok o ->
      (length (filter (summedKey o) (rho' (o_all o))) <= 1)%nat) ->
   out = out').
Proof.
  intros Hrho Hrho' H H'.
  assert (forall o, parseEinsum lt s = Ok o ->
            filter (summedKey o) (rho (o_all o)) = filter (summedKey o) (rho' (o_all o)) ->
            out = out') as Hsame.
  { intros o Hp Hf.
    apply Einsum_mono with (fuel' := (fuel + fuel')%nat) in H; [|lia].
    apply Einsum_mono with (fuel' := (fuel + fuel')%nat) in H'; [|lia].
    rewrite (Einsum_ext lt _ rho rho') in H.
    - rewrite H' in H. by injection H.
    - intros o' Hp'. rewrite Hp in Hp'. by injection Hp' as <-. }
  unfold Einsum, setup in H, H'.
  destruct (parseEinsum lt s) as [o|] eqn:Hp; [|done]. cbn [bind] in H, H'.
  destruct (executor rho o operands) as [[exc d]|] eqn:E; [|done].
  destruct (executor rho' o operands) as [[exc' d']|] eqn:E'; [|done].
  cbn [bind] in H, H'.
  destruct (outputZeros d); [|done]. destruct (outputZeros d'); [|done].
  cbn [bind] in H, H'.
  destruct (loop fuel _ _ _ _) as [[?|]|]; try done.
  destruct (loop fuel' _ _ _ _) as [[?|]|]; try done.
  simplify_eq.
  split; [|split].
  - eapply dimOf_shape_unique; by eapply executor_shape.
  - intros Hf. apply (Hsame o eq_refl). by apply Hf.
  - intros Hlen. apply (Hsame o eq_refl). apply summed_order; auto.
Qed.

Lemma einsum_two_calls_witness :
  range_order rho_keys /\ range_order rho_rev /\
  Einsum noTable 8 rho_keys (runes "ik,kj->ij") [B22; C22]
  = Some (Ok ([2; 2], [2; 3; 6; 8]%float)) /\
  Einsum noTable 9 rho_rev (runes "ik,kj->ij") [B22; C22]
  = Some (Ok ([2; 2], [2; 3; 6; 8]%float)) /\
  [2; 2] = [2; 2] /\ [2; 3; 6; 8]%float = [2; 3; 6; 8]%float.
Proof.
  assert (Einsum noTable 8 rho_keys (runes "ik,kj->ij") [B22; C22]
          = Some (Ok ([2; 2], [2; 3; 6; 8]%float))) as H1 by (by vm_compute).
  assert (Einsum noTable 9 rho_rev (runes "ik,kj->ij") [B22; C22]
          = Some (Ok ([2; 2], [2; 3; 6; 8]%float))) as H2 by (by vm_compute).
  destruct (einsum_two_calls noTable rho_keys rho_rev _ _ _ _ _ _ _ _
              rho_keys_order rho_rev_order H1 H2) as (Hd & _ & Ho).
  split; [apply rho_keys_order|]. split; [apply rho_rev_order|].
  split; [exact H1|]. split; [exact H2|]. split; [exact Hd|].
  apply Ho. intros o Hp. vm_compute in Hp. injection Hp as <-. vm_compute. lia.
Defined.

Lemma einsum_two_calls_counterexample :
  range_order rho_keys /\ range_order rho_rev /\
  Einsum noTable 4 rho_keys (runes "ij->") [cancelling] = Some (Ok ([], [0%float])) /\
  Einsum noTable 4 rho_rev (runes "ij->") [cancelling] = Some (Ok ([], [1%float])) /\
  [0%float] <> [1%float].
Proof.
  split; [apply rho_keys_order|]. split; [apply rho_rev_order|].
  split; [by vm_compute|]. split; [by vm_compute|].
  intros H.
  apply (f_equal (fun l => PrimFloat.ltb (nth 0 l 0%float) 0.5%float)) in H.
  vm_compute in H. discriminate H.
Qed.

(** ** Repeated letters and stray dashes *)

(** C4, at the diagonal of a 2x3 matrix: the letter [i] is bound to 2 rows
    and to 3 columns, and [dimOf] returns 2 without a panic; [Einsum]
    returns two elements. *)
Theorem diagonal_mismatch_unnoticed lt rho fuel :
  range_order rho -> (2 <= fuel)%nat ->
  (exists o, parseEinsum lt (runes "ii->i") = Ok o /\
             o_inputs o = [[105; 105]] /\ Dims rect23 = (2, 3) /\
             dimOf o 105 [rect23] = Ok 2) /\
  Einsum lt fuel rho (runes "ii->i") [rect23] = Some (Ok ([2], [1; 5]%float)).
Proof.
  intros Hrho Hfuel. split.
  - eexists. split; [by vm_compute|]. by vm_compute.
  - apply Einsum_mono with 2%nat; [|done].
    rewrite (Einsum_ext lt 2 rho rho_keys); [by vm_compute|].
    intros o Ho. apply summed_order; [done|apply rho_keys_order|].
    vm_compute in Ho. injection Ho as <-. vm_compute. lia.
Qed.

Lemma diagonal_mismatch_witness :
  range_order rho_keys /\ (2 <= 2)%nat /\
  Einsum noTable 2 rho_keys (runes "ii->i") [rect23]
  = Some (Ok ([2], [1; 5]%float)).
Proof.
  split; [apply rho_keys_order|]. split; [lia|].
  apply (diagonal_mismatch_unnoticed noTable rho_keys 2 rho_keys_order). lia.
Defined.

(** Across operands the check is there: extents 2 and 3 bound to one
    letter make [dimOf] panic. *)
Lemma dimOf_across_operands lt :
  exists o, parseEinsum lt (runes "ik,kj->ij") = Ok o /\
            dimOf o 107 [B22; NewDense 3 2 [1; 2; 3; 4; 5; 6]%float]
            = Panic (DimMismatch 2 3 1).
Proof. eexists. split; by vm_compute. Qed.

(** C5, at "i-j" and at "i-": a '-' that no '>' follows is read over,
    and the parser returns a specification. *)
Theorem stray_dash_accepted lt :
  (exists o, parseEinsum lt (runes "i-j") = Ok o /\
             o_inputs o = [[105; 106]] /\ o_output o = []) /\
  (exists o, parseEinsum lt (runes "i-") = Ok o /\
             o_inputs o = [[105]] /\ o_output o = []).
Proof.
  split; eexists; (split; [by vm_compute|]); by vm_compute.
Qed.

(** The only check on the marker: a '>' that does not follow a '-'. *)
Lemma gt_without_dash lt o mode :
  last o <> dash -> parseRune lt o mode gt = Panic (UnexpectedAfterDash gt).
Proof.
  intros H. unfold parseRune. change (gt =? comma) with false.
  change (gt =? dash) with false. change (gt =? gt) with true. cbv iota.
  destruct (Z.eqb_spec (last o) dash); done.
Qed.

(** * Further properties *)

(** ** What the parser accepts *)

Lemma slot_Ok o mode r :
  (mode = opsParseModeGrowInput -> o_inputs o <> []) ->
  exists o' mode', slot (markAll o r) mode r = Ok (o', mode') /\
    o_seq o' = o_seq o /\
    (mode' = opsParseModeGrowInput -> o_inputs o' <> []).
Proof.
  intros Hgrow. destruct mode.
  - eexists _, _. split; [done|]. split; [done|]. intros _. simpl.
    by destruct (o_inputs o).
  - destruct (o_inputs o) as [|w ws _] eqn:E using rev_ind; [by destruct Hgrow|].
    eexists _, _. rewrite (slot_grow _ ws w) by done.
    split; [done|]. split; [done|]. intros _. simpl. by destruct ws.
  - eexists _, _. split; [done|]. split; [done|]. done.
Qed.

Lemma last_seq o o' : o_seq o' = o_seq o -> last o' = last o.
Proof. unfold last. by intros ->. Qed.

Lemma parseLoop_fault lt s : forall o mode,
  (mode = opsParseModeGrowInput -> o_inputs o <> []) ->
  match firstFault lt (last o) s with
  | Some e => parseLoop lt o mode s = Panic e
  | None => exists o', parseLoop lt o mode s = Ok o'
  end.
Proof.
  induction s as [|r s IH]; intros o mode Hgrow; [by exists o|].
  cbn [firstFault parseLoop]. unfold parseRune.
  destruct (r =? comma) eqn:E1.
  { cbn [bind]. specialize (IH (appendSeq o r) opsParseModeNewInput).
    rewrite last_appendSeq in IH. by apply IH. }
  destruct (r =? dash) eqn:E2.
  { cbn [bind]. specialize (IH (appendSeq o r) mode).
    rewrite last_appendSeq in IH. by apply IH. }
  destruct (r =? gt) eqn:E3.
  { destruct (last o =? dash); [|done]. cbn [negb bind].
    specialize (IH (appendSeq o r) opsParseModeOutput).
    rewrite last_appendSeq in IH. by apply IH. }
  destruct (IsSpace r); [cbn [bind]; by apply IH|].
  destruct (IsLetter lt r); [|done]. cbn [negb].
  destruct (slot_Ok o mode r Hgrow) as (o1 & mode1 & -> & Hseq & Hg1).
  cbn [bind]. specialize (IH (appendSeq o1 r) mode1).
  rewrite last_appendSeq in IH. by apply IH.
Qed.

Lemma parseEinsum_fault lt s :
  match firstFault lt 0 s with
  | Some e => parseEinsum lt s = Panic e
  | None => exists o, parseEinsum lt s = Ok o
  end.
Proof. by apply (parseLoop_fault lt s emptyOps opsParseModeNewInput). Qed.

Lemma firstFault_kinds lt s : forall prev e,
  firstFault lt prev s = Some e ->
  (exists r, r ∈ s /\ e = UnexpectedNonLetter r /\ ~ validRune lt r) \/
  (e = UnexpectedAfterDash gt /\ gt ∈ s).
Proof.
  induction s as [|r s IH]; intros prev e H; [done|]. cbn [firstFault] in H.
  assert (forall p, firstFault lt p s = Some e ->
    (exists r0, r0 ∈ r :: s /\ e = UnexpectedNonLetter r0 /\ ~ validRune lt r0) \/
    (e = UnexpectedAfterDash gt /\ gt ∈ r :: s)) as Hrec.
  { intros p Hp. destruct (IH p e Hp) as [(r0 & Hr0 & He)|[He Hgt]].
    - left. exists r0. split; [by constructor|done].
    - right. split; [done|by constructor]. }
  destruct (Z.eqb_spec r comma); [by eapply Hrec|].
  destruct (Z.eqb_spec r dash); [by eapply Hrec|].
  destruct (Z.eqb_spec r gt) as [->|].
  { destruct (prev =? dash); [by eapply Hrec|]. injection H as <-.
    right. split; [done|by constructor]. }
  destruct (IsSpace r) eqn:Es; [by eapply Hrec|].
  destruct (IsLetter lt r) eqn:El; [by eapply Hrec|]. injection H as <-.
  left. exists r. split; [by constructor|]. split; [done|].
  unfold validRune. rewrite Es, El. intuition congruence.
Qed.

(** X1: [parseEinsum] panics in two ways only: on a rune that is none of
    ',', '-', '>', a space or a letter, with that rune in the message, or
    on a '>'; it never ends in an index fault. *)
Theorem parse_panics lt s e :
  parseEinsum lt s = Panic e ->
  (exists r, r ∈ s /\ e = UnexpectedNonLetter r /\ ~ validRune lt r) \/
  (e = UnexpectedAfterDash gt /\ gt ∈ s).
Proof.
  intros H. pose proof (parseEinsum_fault lt s) as Hf.
  destruct (firstFault lt 0 s) as [e'|] eqn:E.
  - rewrite Hf in H. injection H as ->. by eapply firstFault_kinds.
  - destruct Hf as [o Ho]. by rewrite Ho in H.
Qed.

Lemma parse_panics_witness :
  parseEinsum noTable (runes "i+j") = Panic (UnexpectedNonLetter 43) /\
  ((exists r, r ∈ runes "i+j" /\ UnexpectedNonLetter 43 = UnexpectedNonLetter r /\
      ~ validRune noTable r) \/
   (UnexpectedNonLetter 43 = UnexpectedAfterDash gt /\ gt ∈ runes "i+j")).
Proof.
  assert (parseEinsum noTable (runes "i+j") = Panic (UnexpectedNonLetter 43)) as H
    by (by vm_compute).
  split; [exact H|]. exact (parse_panics noTable _ _ H).
Defined.

Lemma strip_cons_space r s : IsSpace r = true -> strip (r :: s) = strip s.
Proof. intros H. unfold strip. simpl. by rewrite H. Qed.

Lemma strip_cons_keep r s : IsSpace r = false -> strip (r :: s) = r :: strip s.
Proof. intros H. unfold strip. simpl. by rewrite H. Qed.

Lemma last_cons_default (x : rune) l : forall d d',
  List.last (x :: l) d = List.last (x :: l) d'.
Proof.
  revert x. induction l as [|y l IH]; intros x d d'; [done|].
  change (List.last (y :: l) d = List.last (y :: l) d'). apply IH.
Qed.

Lemma last_cons_shift (r : rune) pre prev :
  List.last (r :: pre) prev = List.last pre r.
Proof.
  destruct pre as [|z pre]; [done|].
  change (List.last (z :: pre) prev = List.last (z :: pre) r).
  apply last_cons_default.
Qed.

Lemma firstFault_None lt s : forall prev,
  firstFault lt prev s = None <->
  Forall (validRune lt) s /\
  (forall pre post, strip s = pre ++ gt :: post -> List.last pre prev = dash).
Proof.
  induction s as [|r s IH]; intros prev.
  { split; [|done]. intros _. split; [done|]. intros pre post H.
    by destruct pre. }
  assert (IsSpace r = false ->
          ((forall pre post, strip (r :: s) = pre ++ gt :: post ->
              List.last pre prev = dash) <->
           (r = gt -> prev = dash) /\
           (forall pre post, strip s = pre ++ gt :: post ->
              List.last pre r = dash))) as Hsplit.
  { intros Hs. rewrite strip_cons_keep by done. split.
    - intros H. split.
      + intros ->. by apply (H [] (strip s)).
      + intros pre post E. specialize (H (r :: pre) post). rewrite E in H.
        specialize (H eq_refl). by rewrite last_cons_shift in H.
    - intros [H1 H2] [|x pre] post E; simpl in E.
      + injection E as -> _. by apply H1.
      + injection E as -> E. rewrite last_cons_shift. by apply (H2 pre post). }
  cbn [firstFault]. rewrite Forall_cons.
  destruct (Z.eqb_spec r comma) as [->|].
  { rewrite IH, Hsplit by done. unfold validRune. intuition; done. }
  destruct (Z.eqb_spec r dash) as [->|].
  { rewrite IH, Hsplit by done. unfold validRune. intuition; done. }
  destruct (Z.eqb_spec r gt) as [->|].
  { rewrite Hsplit by done. destruct (Z.eqb_spec prev dash) as [|Hne].
    - rewrite IH. unfold validRune. intuition.
    - split; [done|]. intros (_ & H & _). destruct Hne. by apply H. }
  destruct (IsSpace r) eqn:Es.
  { rewrite IH, strip_cons_space by done. unfold validRune. intuition. }
  destruct (IsLetter lt r) eqn:El.
  { rewrite IH, Hsplit by done. unfold validRune. intuition congruence. }
  split; [done|]. intros [[Hv _] _]. unfold validRune in Hv.
  rewrite Es, El in Hv. intuition congruence.
Qed.

(** X2: [parseEinsum] returns a specification exactly when every rune is
    ',', '-', '>', a space or a letter and every '>' directly follows a
    '-', spaces between them not counting. *)
Theorem parse_accepts lt s :
  (exists o, parseEinsum lt s = Ok o) <->
  Forall (validRune lt) s /\ markersClosed (strip s).
Proof.
  unfold markersClosed. rewrite <- firstFault_None.
  pose proof (parseEinsum_fault lt s) as Hf.
  destruct (firstFault lt 0 s) as [e|].
  - split; [|done]. intros [o Ho]. by rewrite Ho in Hf.
  - done.
Qed.

(** ** What the parser returns *)

Lemma parseRune_shaped lt o mode r o' mode' :
  shaped lt o -> parseRune lt o mode r = Ok (o', mode') ->
  shaped lt o' /\
  o_seq o' = o_seq o ++ (if IsSpace r then [] else [r]).
Proof.
  intros (Ha & Hi & Ho) H. unfold parseRune in H.
  destruct (Z.eqb_spec r comma) as [->|]; [by injection H as <- <-|].
  destruct (Z.eqb_spec r dash) as [->|]; [by injection H as <- <-|].
  destruct (Z.eqb_spec r gt) as [->|].
  { destruct (negb _); [done|]. by injection H as <- <-. }
  destruct (IsSpace r) eqn:Es.
  { injection H as <- <-. by rewrite app_nil_r. }
  destruct (IsLetter lt r) eqn:El; [|done]. cbn [negb] in H.
  assert (indexLetter lt r = true) as Hl by (unfold indexLetter; by rewrite Es, El).
  assert (forall x b, <[r:=true]> (o_all o) !! x = Some b -> b = true) as Ha'.
  { intros x b. destruct (decide (r = x)) as [->|].
    - rewrite lookup_insert_eq. congruence.
    - rewrite lookup_insert_ne by done. apply Ha. }
  destruct mode.
  - simpl in H. injection H as <- <-. split; [|done].
    split; [done|]. split; [|done]. simpl.
    apply Forall_app. split; [done|]. by repeat constructor.
  - unfold slot in H. cbn [bind o_inputs markAll] in H.
    destruct (o_inputs o !! _) as [input|] eqn:E; [|done].
    simpl in H. injection H as <- <-. split; [|done].
    split; [done|]. split; [|done]. simpl.
    apply Forall_insert; [done|].
    rewrite Forall_lookup in Hi. destruct (Hi _ _ E) as [Hne Hw].
    split; [by destruct input|]. apply Forall_app. split; [done|].
    by repeat constructor.
  - simpl in H. injection H as <- <-. split; [|done].
    split; [done|]. split; [done|]. simpl.
    apply Forall_app. split; [done|]. by repeat constructor.
Qed.

Lemma parseLoop_shaped lt s : forall o mode o',
  shaped lt o -> parseLoop lt o mode s = Ok o' ->
  shaped lt o' /\ o_seq o' = o_seq o ++ strip s.
Proof.
  induction s as [|r s IH]; intros o mode o' Hsh H; simpl in H.
  - injection H as <-. by rewrite app_nil_r.
  - destruct (parseRune lt o mode r) as [[o1 mode1]|] eqn:E; [|done].
    simpl in H. destruct (parseRune_shaped _ _ _ _ _ _ Hsh E) as [Hsh1 Hseq1].
    destruct (IH _ _ _ Hsh1 H) as [Hsh' Hseq']. split; [done|].
    rewrite Hseq', Hseq1, <- app_assoc. f_equal. unfold strip. simpl.
    by destruct (IsSpace r).
Qed.

Lemma shaped_empty lt : shaped lt emptyOps.
Proof.
  split; [|by split]. intros r b. simpl. by rewrite lookup_empty.
Qed.

(** X3: what a successful [parseEinsum] hands back: [seq] is the
    subscript without its spaces, [all] holds exactly its index letters,
    [free] exactly the letters of the output, every free letter is in
    [all], every input is a non-empty sequence of index letters and the
    output is a sequence of index letters. *)
Theorem parse_returns lt s o :
  parseEinsum lt s = Ok o ->
  o_seq o = strip s /\
  (forall r, mapGet (o_all o) r = true <-> r ∈ s /\ indexLetter lt r = true) /\
  (forall r, mapGet (o_free o) r = true <-> r ∈ o_output o) /\
  (forall r, mapGet (o_free o) r = true -> mapGet (o_all o) r = true) /\
  Forall (word lt) (o_inputs o) /\
  Forall (fun r => indexLetter lt r = true) (o_output o).
Proof.
  intros Hp.
  destruct (parseLoop_shaped lt s _ _ _ (shaped_empty lt) Hp) as [(Hv & Hi & Ho) Hseq].
  destruct (parseEinsum_recorded lt s o Hp) as [Hall Hfree].
  pose proof (parseEinsum_all lt s o Hp) as Hkeys.
  assert (forall r, mapGet (o_all o) r = true <-> is_Some (o_all o !! r)) as Hget.
  { intros r. unfold mapGet. split.
    - destruct (o_all o !! r); [by eexists|done].
    - intros [b Hb]. rewrite Hb. simpl. by eapply Hv. }
  split; [done|]. split.
  { intros r. by rewrite Hget, Hkeys. }
  split; [done|]. split; [|done].
  intros r Hr. apply Hget, Hall. right. by apply Hfree.
Qed.

Lemma parse_returns_witness :
  exists o, parseEinsum noTable (runes "ij, jk -> ik") = Ok o /\
            o_seq o = runes "ij,jk->ik" /\
            Forall (word noTable) (o_inputs o).
Proof.
  eexists. split; [by vm_compute|].
  edestruct (parse_returns noTable (runes "ij, jk -> ik")) as (H1 & _ & _ & _ & H2 & _);
    [by vm_compute|].
  split; [exact H1|exact H2].
Defined.

Lemma parse_marker_output lt o out :
  Forall (fun r => indexLetter lt r = true) out ->
  exists o', parseLoop lt o opsParseModeGrowInput ([dash; gt] ++ out) = Ok o' /\
             o_inputs o' = o_inputs o /\ o_output o' = o_output o ++ out.
Proof.
  intros Hout. cbn [app parseLoop].
  rewrite parseRune_dash. cbn [bind]. rewrite parseRune_marker. cbn [bind].
  destruct (parse_output lt out (appendSeq (appendSeq o dash) gt) Hout)
    as (o' & -> & Hi & Ho).
  by exists o'.
Qed.

(** X4: writing a parsed specification with [String] and parsing the
    text again gives the same inputs and the same output, so the text is
    a normal form of the subscript. *)
Theorem parse_String_parse lt s o :
  parseEinsum lt s = Ok o ->
  exists o', parseEinsum lt (einsumOps_String o) = Ok o' /\
             o_inputs o' = o_inputs o /\ o_output o' = o_output o /\
             einsumOps_String o' = einsumOps_String o.
Proof.
  intros Hp.
  destruct (parseLoop_shaped lt s _ _ _ (shaped_empty lt) Hp) as [(_ & Hi & Ho) _].
  assert (exists o', parseEinsum lt (einsumOps_String o) = Ok o' /\
             o_inputs o' = o_inputs o /\ o_output o' = o_output o)
    as (o' & Hp' & Hi' & Ho').
  { rewrite String_canonical. destruct (o_inputs o) as [|w ws] eqn:E.
    - unfold canonical, parseEinsum. simpl joinComma. cbn [app parseLoop].
      rewrite parseRune_dash. cbn [bind]. rewrite parseRune_marker. cbn [bind].
      destruct (parse_output lt (o_output o) (appendSeq (appendSeq emptyOps dash) gt) Ho)
        as (o' & -> & Hi' & Ho').
      by exists o'.
    - destruct (parse_canonical lt (w :: ws) (o_output o)) as (o' & ? & ? & ?);
        try done.
      by exists o'. }
  exists o'. split; [done|]. split; [done|]. split; [done|].
  by rewrite !String_canonical, Hi', Ho'.
Qed.

Lemma parse_String_parse_witness :
  exists o o', parseEinsum noTable (runes "i->j,k") = Ok o /\
    einsumOps_String o = runes "i,k->j" /\
    parseEinsum noTable (runes "i,k->j") = Ok o' /\
    o_inputs o' = o_inputs o /\ o_output o' = o_output o.
Proof.
  assert (exists o, parseEinsum noTable (runes "i->j,k") = Ok o) as [o Hp]
    by (eexists; by vm_compute).
  destruct (parse_String_parse noTable _ o Hp) as (o' & Hp' & Hi & Ho & _).
  exists o, o'. split; [done|].
  assert (einsumOps_String o = runes "i,k->j") as Hs.
  { vm_compute in Hp. injection Hp as <-. by vm_compute. }
  rewrite Hs in Hp'. done.
Defined.

(** X5: [String] always writes the marker: for a subscript of operand
    letter sequences joined by ',', without "->", the text written for
    the parsed specification is the subscript without its spaces followed
    by "->". *)
Theorem String_adds_marker lt s ws :
  ws <> [] -> Forall (word lt) ws -> strip s = joinComma ws ->
  exists o, parseEinsum lt s = Ok o /\ o_inputs o = ws /\ o_output o = [] /\
            einsumOps_String o = strip s ++ [dash; gt].
Proof.
  intros Hne Hws Hs.
  destruct (parse_inputs lt ws emptyOps [] Hne Hws) as (o & Hp & Hi & Ho & _).
  rewrite app_nil_r in Hp. simpl in Hp.
  exists o. unfold parseEinsum. rewrite parseLoop_strip, Hs.
  split; [done|]. split; [done|]. split; [done|].
  rewrite String_canonical, Hi, Ho. unfold canonical. by rewrite app_nil_r.
Qed.

Lemma String_adds_marker_witness :
  exists o, parseEinsum noTable (runes "ij, jk") = Ok o /\
            einsumOps_String o = runes "ij,jk->".
Proof.
  destruct (String_adds_marker noTable (runes "ij, jk") [[105; 106]; [106; 107]])
    as (o & Hp & _ & _ & Hs); [done| |done|].
  - repeat constructor; done.
  - exists o. split; [done|]. exact Hs.
Defined.

(** ** What [increment] keeps *)

Lemma incrementFrom_keeps k : forall c,
  static <$> c_c (incrementFrom k c) = static <$> c_c c /\
  (c_done c = true -> c_done (incrementFrom k c) = true).
Proof.
  induction k as [|idx IH]; intros c; [done|]. cbn [incrementFrom].
  destruct (c_c c !! idx) as [ec|] eqn:E; [|done].
  assert (forall v, static <$> <[idx:=setV ec v]> (c_c c) = static <$> c_c c) as Hins.
  { intros v. rewrite list_fmap_insert. apply list_insert_id.
    by rewrite list_lookup_fmap, E. }
  destruct (_ <? _); [cbn [c_c c_done]; by rewrite Hins|].
  destruct (idx =? 0)%nat; [done|].
  destruct (IH {| c_c := <[idx:=setV ec 0]> (c_c c); c_done := c_done c |})
    as [IH1 IH2].
  cbn [c_c c_done] in IH1, IH2. split; [by rewrite IH1, Hins|done].
Qed.

(** X6: [increment] only moves counter values: in every state it leaves
    the number of counters and the rune, free flag and extent of each
    counter as they are, and it never clears the done flag. *)
Theorem increment_keeps n c :
  static <$> c_c (incrementN n c) = static <$> c_c c /\
  length (c_c (incrementN n c)) = length (c_c c) /\
  (c_done c = true -> c_done (incrementN n c) = true).
Proof.
  revert c. induction n as [|n IH]; intros c; [done|]. cbn [incrementN].
  destruct (IH (increment c)) as (IH1 & IH2 & IH3).
  destruct (incrementFrom_keeps (length (c_c c)) c) as [H1 H2].
  fold (increment c) in H1, H2.
  split; [by rewrite IH1|]. split; [|auto].
  rewrite IH2, <- (length_fmap static), H1. apply length_fmap.
Qed.

(** X7: from the all-zero state of a non-empty counter sequence with
    extents of at least 1, the drive loop visits the combinations of the
    nested loops, each once and in lexicographic order, as many as the
    product of the extents, and [increment] sets the done flag with the
    call after the last of them, not before. *)
Theorem odometer_nested_loops c :
  c_c c <> [] -> c_done c = false ->
  Forall (fun ec => ec_v ec = 0) (c_c c) ->
  Forall (fun ec => is_int (ec_dim ec)) (c_c c) ->
  Forall (fun ec => 1 <= ec_dim ec) (c_c c) ->
  let N := Z.to_nat (space (c_c c)) in
  space (c_c c) = foldr Z.mul 1 (ec_dim <$> c_c c) /\
  visited N c = combos (c_c c) /\
  NoDup (combos (c_c c)) /\ length (combos (c_c c)) = N /\
  radixValue <$> combos (c_c c) = seqZ 0 (space (c_c c)) /\
  (forall k, (k < N)%nat -> c_done (incrementN k c) = false) /\
  c_done (incrementN N c) = true.
Proof.
  intros Hne Hd Hz Hi Hdim N. split; [|by apply odometer_visits].
  clear -Hdim. induction Hdim as [|ec cs H _ IH]; [done|].
  rewrite fmap_cons. cbn [foldr space]. rewrite IH. unfold ext. f_equal. lia.
Qed.

Lemma odometer_nested_loops_witness :
  visited 12 threeCounters = combos (c_c threeCounters) /\
  c_done (incrementN 11 threeCounters) = false /\
  c_done (incrementN 12 threeCounters) = true.
Proof.
  destruct (odometer_nested_loops threeCounters) as (_ & H1 & _ & _ & _ & H2 & H3).
  - done.
  - done.
  - by repeat constructor.
  - repeat constructor; by vm_compute.
  - repeat constructor; by vm_compute.
  - split; [exact H1|]. split; [apply H2; vm_compute; lia|exact H3].
Defined.

(** X8: extents below 1 count as 1.  From the all-zero state of any
    non-empty counter sequence whose extents are Go [int]s, [increment]
    sets the done flag with call number [prod (max 1 dim)] and not
    before, so the drive loop always takes at least one turn. *)
Theorem odometer_turns c :
  c_c c <> [] -> c_done c = false ->
  Forall (fun ec => ec_v ec = 0) (c_c c) ->
  Forall (fun ec => is_int (ec_dim ec)) (c_c c) ->
  let N := Z.to_nat (foldr Z.mul 1 ((fun ec => Z.max 1 (ec_dim ec)) <$> c_c c)) in
  (1 <= N)%nat /\
  (forall k, (k < N)%nat -> c_done (incrementN k c) = false) /\
  c_done (incrementN N c) = true.
Proof.
  intros Hne Hd Hz Hi N. pose proof (zero_inRange _ Hz Hi) as Hok.
  pose proof (zero_radixValue _ Hz) as H0.
  assert (foldr Z.mul 1 ((fun ec => Z.max 1 (ec_dim ec)) <$> c_c c) = space (c_c c))
    as E.
  { clear. induction (c_c c) as [|ec cs IH]; [done|].
    rewrite fmap_cons. cbn [foldr space]. by rewrite IH. }
  subst N. rewrite E. pose proof (space_pos (c_c c)). split; [lia|]. split.
  - intros k Hk.
    destruct (incrementN_spec k c Hok) as (cs' & -> & _); [lia|done].
  - pose proof (incrementN_done c Hok Hne) as H'. by rewrite H0, Z.sub_0_r in H'.
Qed.

Lemma odometer_turns_witness :
  c_done (incrementN 2 flatCounters) = false /\
  c_done (incrementN 3 flatCounters) = true.
Proof.
  destruct (odometer_turns flatCounters) as (_ & H2 & H3).
  - done.
  - done.
  - by repeat constructor.
  - repeat constructor; by vm_compute.
  - split; [apply H2; vm_compute; lia|exact H3].
Defined.

(** ** The counters that [executor] builds *)

Lemma fillFree_fits output : forall cs i cs',
  (i <= length cs)%nat ->
  fillFree cs i output = Ok cs' -> (i + length output <= length cs)%nat.
Proof.
  induction output as [|r output IH]; intros cs i cs' Hi H; simpl in H.
  - simpl. lia.
  - destruct (Nat.ltb_spec i (length cs)) as [Hlt|]; [|done].
    apply IH in H; rewrite length_insert in *; simpl; lia.
Qed.

Lemma fillFree_panic output : forall cs i e,
  fillFree cs i output = Panic e -> e = IndexOutOfRange.
Proof.
  induction output as [|r output IH]; intros cs i e H; simpl in H; [done|].
  destruct (_ <? _)%nat; [by eapply IH|]. by injection H as <-.
Qed.

Lemma fillSummed_panic o keys : forall cs s e,
  fillSummed o cs s keys = Panic e -> e = IndexOutOfRange.
Proof.
  induction keys as [|r keys IH]; intros cs s e H; simpl in H; [done|].
  destruct (mapGet (o_free o) r); [by eapply IH|].
  destruct (_ <? _)%nat; [by eapply IH|]. by injection H as <-.
Qed.

(** The summed counters fill the slots after the free ones, in the
    order of the keys. *)
Lemma fillSummed_exact o keys : forall cs s cs',
  (length (o_output o) + s <= length cs)%nat ->
  fillSummed o cs s keys = Ok cs' ->
  let K := filter (summedKey o) keys in
  let L := length (o_output o) in
  (L + s + length K <= length cs)%nat /\
  cs' = take (L + s) cs ++ ((fun r => mkCounter r false) <$> K)
          ++ drop (L + s + length K) cs.
Proof.
  induction keys as [|r keys IH]; intros cs s cs' Hfit H; simpl in H.
  - injection H as <-. cbn zeta. rewrite filter_nil. simpl.
    rewrite Nat.add_0_r, take_drop. by split.
  - cbn zeta. destruct (mapGet (o_free o) r) eqn:Ef.
    + rewrite filter_cons_False by (unfold summedKey; by rewrite Ef).
      by apply IH.
    + rewrite filter_cons_True by done.
      destruct (Nat.ltb_spec (length (o_output o) + s) (length cs)) as [Hlt|];
        [|done].
      assert (length (o_output o) + S s
              <= length (<[(length (o_output o) + s)%nat:=mkCounter r false]> cs))%nat
        as Hfit' by (rewrite length_insert; lia).
      destruct (IH _ _ _ Hfit' H) as [IH1 IH2].
      cbn zeta in IH1, IH2.
      rewrite length_insert in IH1. split; [simpl; lia|].
      rewrite IH2.
      replace (length (o_output o) + S s)%nat with (S (length (o_output o) + s))
        by lia.
      rewrite (take_S_r _ _ (mkCounter r false)) by (by apply list_lookup_insert_eq).
      rewrite take_insert_ge by lia. rewrite drop_insert_lt by lia.
      rewrite <- app_assoc. simpl. do 3 f_equal. by rewrite Nat.add_succ_r.
Qed.

Lemma range_order_keys rho (m : gmap Z bool) :
  range_order rho ->
  NoDup (rho m) /\ length (rho m) = size m /\
  (forall r, r ∈ rho m <-> is_Some (m !! r)).
Proof.
  intros H. specialize (H m). split; [|split].
  - rewrite H. apply NoDup_fst_map_to_list.
  - by rewrite H, length_fmap, length_map_to_list.
  - intros r. rewrite H, list_elem_of_fmap. split.
    + intros ([k b] & -> & Hkb). apply elem_of_map_to_list in Hkb. by eexists.
    + intros [b Hb]. exists (r, b). split; [done|]. by apply elem_of_map_to_list.
Qed.

(** When both fills succeed, the slice is exactly full: the output
    letters, pairwise distinct, then the summed keys. *)
Lemma fills_exact rho o cs0 cs1 :
  range_order rho -> recorded o ->
  fillFree (replicate (size (o_all o)) zeroCounter) 0 (o_output o) = Ok cs0 ->
  fillSummed o cs0 0 (rho (o_all o)) = Ok cs1 ->
  NoDup (o_output o) /\
  cs1 = ((fun r => mkCounter r true) <$> o_output o)
          ++ ((fun r => mkCounter r false) <$> filter (summedKey o) (rho (o_all o))).
Proof.
  intros Hrho [Hall Hfree] E0 E1.
  destruct (range_order_keys rho (o_all o) Hrho) as (Hnd & Hlen & Hkeys).
  set (keys := rho (o_all o)) in *. set (L := length (o_output o)).
  set (n := size (o_all o)) in *.
  pose proof (fillFree_fits _ _ _ _ (Nat.le_0_l _) E0) as Hfit0.
  rewrite length_replicate in Hfit0. simpl in Hfit0.
  pose proof (fillFree_length _ _ _ _ E0) as Hlen0.
  rewrite length_replicate in Hlen0.
  apply fillFree_take in E0. simpl in E0.
  assert (length (o_output o) + 0 <= length cs0)%nat as Hfit by lia.
  destruct (fillSummed_exact o keys cs0 0 cs1 Hfit E1) as [Hfit1 ->].
  cbn zeta in Hfit1. fold L in Hfit1 |- *. rewrite Nat.add_0_r in Hfit1 |- *.
  set (K := filter (summedKey o) keys) in *.
  set (Fk := filter (fun r => ~ summedKey o r) keys).
  assert (length K + length Fk = n)%nat as Hpart.
  { rewrite <- Hlen, <- length_app. apply Permutation_length.
    apply filter_app_complement. }
  assert (Fk ⊆+ o_output o) as Hsub.
  { apply NoDup_submseteq; [by apply NoDup_filter|].
    intros r Hr. apply list_elem_of_filter in Hr as [Hr _]. apply Hfree.
    unfold summedKey in Hr. by destruct (mapGet (o_free o) r). }
  pose proof (submseteq_length _ _ Hsub) as HFk. fold L in HFk.
  assert (length Fk = L) as HFL by lia.
  assert (Fk ≡ₚ o_output o) as Hperm
    by (apply submseteq_length_Permutation; [done|fold L; lia]).
  split.
  { rewrite <- Hperm. by apply NoDup_filter. }
  rewrite (drop_ge cs0) by lia. rewrite app_nil_r. f_equal.
  rewrite E0. apply take_app_length'. by rewrite length_fmap.
Qed.

Lemma resolveDims_keeps o operands cs cs' outputDim :
  resolveDims o operands cs = Ok (cs', outputDim) ->
  (fun ec => (ec_r ec, ec_free ec)) <$> cs' = (fun ec => (ec_r ec, ec_free ec)) <$> cs.
Proof.
  intros H. destruct (resolveDims_spec _ _ _ _ _ H) as [HF _]. clear H.
  induction HF as [|ec ec' l l' (d & _ & ->) _ IH]; [done|].
  rewrite !fmap_cons. by rewrite IH.
Qed.

(** X9: the counters of a successful [executor], for a parsed
    specification: the output letters in their order, each free, then the
    summed keys of [all] in the order the map was ranged over, none free;
    so the output letters are pairwise distinct and every letter of the
    subscript has exactly one counter. *)
Theorem executor_counters lt rho s o operands exc dim :
  range_order rho -> parseEinsum lt s = Ok o ->
  executor rho o operands = Ok (exc, dim) ->
  NoDup (o_output o) /\
  (fun ec => (ec_r ec, ec_free ec)) <$> c_c exc
  = ((fun r => (r, true)) <$> o_output o)
      ++ ((fun r => (r, false)) <$> filter (summedKey o) (rho (o_all o))) /\
  ec_r <$> c_c exc ≡ₚ (map_to_list (o_all o)).*1.
Proof.
  intros Hrho Hp H. pose proof (parseEinsum_recorded lt s o Hp) as Hrec.
  unfold executor in H.
  destruct (fillFree _ _ _) as [cs0|] eqn:E0; [|done]. simpl in H.
  destruct (fillSummed _ _ _ _) as [cs1|] eqn:E1; [|done]. simpl in H.
  destruct (resolveDims _ _ _) as [[cs2 od]|] eqn:E2; [|done]. simpl in H.
  injection H as <- <-. simpl.
  destruct (fills_exact rho o cs0 cs1 Hrho Hrec E0 E1) as [Hnd Hcs1].
  assert ((fun ec => (ec_r ec, ec_free ec)) <$> cs2
          = ((fun r => (r, true)) <$> o_output o)
              ++ ((fun r => (r, false)) <$> filter (summedKey o) (rho (o_all o))))
    as Hshape.
  { rewrite (resolveDims_keeps _ _ _ _ _ E2), Hcs1, fmap_app.
    by rewrite <- !list_fmap_compose. }
  split; [done|]. split; [done|].
  assert (ec_r <$> cs2 = o_output o ++ filter (summedKey o) (rho (o_all o))) as ->.
  { transitivity (fst <$> ((fun ec => (ec_r ec, ec_free ec)) <$> cs2)).
    - by rewrite <- list_fmap_compose.
    - rewrite Hshape, fmap_app, <- !list_fmap_compose.
      f_equal; apply list_fmap_id. }
  destruct Hrec as [Hall Hfree].
  destruct (range_order_keys rho (o_all o) Hrho) as (Hndk & _ & Hkeys).
  transitivity (rho (o_all o)); [|apply Hrho].
  transitivity (filter (fun r => ~ summedKey o r) (rho (o_all o))
                  ++ filter (summedKey o) (rho (o_all o))).
  2:{ rewrite Permutation_app_comm. apply filter_app_complement. }
  apply Permutation_app_tail.
  apply NoDup_Permutation; [done|by apply NoDup_filter|].
  intros r. rewrite list_elem_of_filter, Hkeys, Hall, <- Hfree.
  unfold summedKey. destruct (mapGet (o_free o) r); intuition; try done.
Qed.

Lemma executor_counters_witness :
  exists o exc dim,
    parseEinsum noTable (runes "ik,kj->ij") = Ok o /\
    executor rho_rev o [B22; C22] = Ok (exc, dim) /\
    (fun ec => (ec_r ec, ec_free ec)) <$> c_c exc
    = [(105, true); (106, true); (107, false)].
Proof.
  destruct (parseEinsum noTable (runes "ik,kj->ij")) as [o|] eqn:Hp;
    [|by vm_compute in Hp].
  destruct (executor rho_rev o [B22; C22]) as [[exc dim]|] eqn:He.
  2:{ vm_compute in Hp. injection Hp as <-. by vm_compute in He. }
  exists o, exc, dim. split; [done|]. split; [done|].
  destruct (executor_counters noTable rho_rev _ o [B22; C22] exc dim
              rho_rev_order Hp He) as (_ & H & _).
  rewrite H. vm_compute in Hp. injection Hp as <-. by vm_compute.
Defined.

(** X10: an output that names a letter twice makes [executor] panic with
    an index out of range, before any dimension is resolved: the slice of
    counters has one slot per distinct letter. *)
Theorem executor_repeated_output lt rho s o operands :
  range_order rho -> parseEinsum lt s = Ok o -> ~ NoDup (o_output o) ->
  executor rho o operands = Panic IndexOutOfRange.
Proof.
  intros Hrho Hp Hdup. pose proof (parseEinsum_recorded lt s o Hp) as Hrec.
  unfold executor.
  destruct (fillFree _ _ _) as [cs0|e] eqn:E0.
  2:{ by rewrite (fillFree_panic _ _ _ _ E0). }
  cbn [bind].
  destruct (fillSummed _ _ _ _) as [cs1|e] eqn:E1.
  2:{ by rewrite (fillSummed_panic _ _ _ _ _ E1). }
  by destruct Hdup, (fills_exact rho o cs0 cs1 Hrho Hrec E0 E1).
Qed.

Lemma executor_repeated_output_witness :
  exists o, parseEinsum noTable (runes "i->ii") = Ok o /\
            executor rho_keys o [vecA] = Panic IndexOutOfRange.
Proof.
  assert (exists o, parseEinsum noTable (runes "i->ii") = Ok o /\
                    o_output o = [105; 105]) as (o & Hp & Ho).
  { eexists. split; by vm_compute. }
  exists o. split; [done|].
  apply (executor_repeated_output noTable rho_keys _ o [vecA] rho_keys_order Hp).
  rewrite Ho. intros H. apply NoDup_cons in H as [H _]. apply H. by constructor.
Defined.

(** ** Panics that cannot happen *)

Lemma counterValLoop_found cs r :
  r ∈ ec_r <$> cs -> exists v, counterValLoop cs r = Ok v.
Proof.
  induction cs as [|ec cs IH]; intros H; [by apply elem_of_nil in H|].
  simpl. destruct (Z.eqb_spec (ec_r ec) r); [by eexists|].
  apply IH. rewrite fmap_cons in H. apply elem_of_cons in H as [->|H]; done.
Qed.

Lemma indexesFor_found exc input :
  (forall r, r ∈ input -> r ∈ ec_r <$> c_c exc) ->
  exists vs, indexesFor exc input = Ok vs.
Proof.
  induction input as [|r input IH]; intros H; [by eexists|]. simpl.
  destruct (counterValLoop_found (c_c exc) r) as [v Hv]; [apply H; by constructor|].
  unfold counterValFor. rewrite Hv. cbn [bind].
  destruct IH as [vs ->]; [intros x Hx; apply H; by constructor|]. by eexists.
Qed.

Lemma product_fault ops exc operands : forall i cur e,
  (forall input r, input ∈ o_inputs ops -> r ∈ input -> r ∈ ec_r <$> c_c exc) ->
  product ops exc operands i cur = Panic e -> turnFault e.
Proof.
  induction operands as [|M operands IH]; intros i cur e Hcov H; simpl in H; [done|].
  destruct (o_inputs ops !! i) as [input|] eqn:E.
  2:{ injection H as <-. by left. }
  unfold operandAt in H.
  destruct (indexesFor_found exc input) as [vs Hvs].
  { intros r Hr. eapply Hcov; [|done]. by eapply list_elem_of_lookup_2. }
  rewrite Hvs in H. cbn [bind] in H.
  assert (forall a b, At M a b = Panic e -> turnFault e) as HAt.
  { intros a b. unfold At. destruct (_ && _); [done|].
    intros HA. injection HA as <-. by right. }
  destruct vs as [|i0 [|i1 vs]].
  - simpl in H. injection H as <-. by left.
  - destruct (At M i0 0) eqn:EA; [|simpl in H; injection H as <-; by eapply HAt].
    simpl in H. by eapply IH.
  - destruct (At M i0 i1) eqn:EA; [|simpl in H; injection H as <-; by eapply HAt].
    simpl in H. by eapply IH.
Qed.

Lemma body_fault ops operands exc out e :
  (forall input r, input ∈ o_inputs ops -> r ∈ input -> r ∈ ec_r <$> c_c exc) ->
  body ops operands exc out = Panic e -> turnFault e.
Proof.
  intros Hcov H. unfold body in H.
  destruct (product _ _ _ _ _) as [cur|e'] eqn:E.
  - simpl in H. unfold accumulate in H. destruct (_ && _); [done|].
    injection H as <-. by left.
  - simpl in H. injection H as <-. by eapply product_fault.
Qed.

Lemma increment_runes c : ec_r <$> c_c (increment c) = ec_r <$> c_c c.
Proof.
  destruct (incrementFrom_keeps (length (c_c c)) c) as [H _].
  fold (increment c) in H.
  transitivity ((fun x => x.1.1) <$> (static <$> c_c (increment c))).
  - by rewrite <- list_fmap_compose.
  - rewrite H. by rewrite <- list_fmap_compose.
Qed.

Lemma loop_fault fuel ops operands : forall exc out e,
  (forall input r, input ∈ o_inputs ops -> r ∈ input -> r ∈ ec_r <$> c_c exc) ->
  loop fuel ops operands exc out = Some (Panic e) -> turnFault e.
Proof.
  induction fuel as [|fuel IH]; intros exc out e Hcov H; simpl in H.
  - by destruct (c_done exc).
  - destruct (c_done exc); [done|].
    destruct (body ops operands exc out) as [out'|e'] eqn:E.
    + eapply IH; [|done]. intros input r Hi Hr. rewrite increment_runes.
      by eapply Hcov.
    + injection H as <-. by eapply body_fault.
Qed.

Lemma dimOfLoop_fault r operands inputs : forall i dim e,
  dimOfLoop r operands inputs i dim = Panic e ->
  e = IndexOutOfRange \/ (exists m, e = Only2D m) \/
  (exists d v j, e = DimMismatch d v j).
Proof.
  induction inputs as [|input inputs IH]; intros i dim e H; simpl in H; [done|].
  destruct (firstMatch r input) as [m|]; [|by eapply IH].
  destruct (matchedDim operands i m) as [v|e'] eqn:E.
  - simpl in H. destruct (dim =? 0); [by eapply IH|].
    destruct (negb _); [|by eapply IH]. injection H as <-.
    right; right. by eexists _, _, _.
  - simpl in H. injection H as <-.
    destruct m as [|[|m]]; simpl in E.
    + destruct (operands !! i); [done|]. injection E as <-. by left.
    + destruct (operands !! i); [done|]. injection E as <-. by left.
    + injection E as <-. right; left. by eexists.
Qed.

Lemma resolveDims_fault o operands cs e :
  resolveDims o operands cs = Panic e ->
  e = IndexOutOfRange \/ (exists m, e = Only2D m) \/
  (exists d v j, e = DimMismatch d v j).
Proof.
  induction cs as [|ec cs IH]; intros H; simpl in H; [done|].
  destruct (dimOf o (ec_r ec) operands) as [d|e'] eqn:E.
  - simpl in H. destruct (resolveDims o operands cs) as [[rest od]|e'']; [done|].
    simpl in H. injection H as <-. by apply IH.
  - simpl in H. injection H as <-. by eapply dimOfLoop_fault.
Qed.

(** X11: [Einsum] never panics with "einsumCounter not found": when the
    executor is built, every rune of every input has a counter, and
    [increment] keeps the runes. *)
Theorem Einsum_finds_counters lt rho s operands fuel r :
  range_order rho ->
  Einsum lt fuel rho s operands <> Some (Panic (CounterNotFound r)).
Proof.
  intros Hrho H. unfold Einsum, setup in H.
  destruct (parseEinsum lt s) as [o|e] eqn:Hp.
  2:{ pose proof (parseEinsum_fault lt s) as Hf. simpl in H.
      destruct (firstFault lt 0 s) as [e'|] eqn:Ef.
      - rewrite Hf in Hp. injection Hp as ->.
        destruct (firstFault_kinds _ _ _ _ Ef) as [(x & _ & -> & _)|[-> _]]; done.
      - destruct Hf as [o' Ho']. by rewrite Ho' in Hp. }
  cbn [bind] in H.
  destruct (executor rho o operands) as [[exc dim]|e] eqn:He.
  2:{ simpl in H. injection H as ->. unfold executor in He.
      destruct (fillFree _ _ _) as [cs0|e0] eqn:E0.
      2:{ simpl in He. injection He as He. apply fillFree_panic in E0. congruence. }
      cbn [bind] in He.
      destruct (fillSummed _ _ _ _) as [cs1|e1] eqn:E1.
      2:{ simpl in He. injection He as He. apply fillSummed_panic in E1. congruence. }
      cbn [bind] in He.
      destruct (resolveDims _ _ _) as [[cs2 od]|e2] eqn:E2; [done|].
      simpl in He. injection He as He.
      destruct (resolveDims_fault _ _ _ _ E2) as [?|[[? ?]|(? & ? & ? & ?)]];
        congruence. }
  cbn [bind] in H.
  destruct (outputZeros dim) as [out|e] eqn:Ez.
  2:{ simpl in H. unfold outputZeros in Ez. destruct (_ <? _); [|done]. congruence. }
  cbn [bind] in H.
  destruct (loop fuel o operands exc out) as [[out'|e]|] eqn:El; try done.
  injection H as ->.
  assert (forall input x, input ∈ o_inputs o -> x ∈ input -> x ∈ ec_r <$> c_c exc)
    as Hcov; [|by destruct (loop_fault fuel o operands exc out _ Hcov El)].
  intros input x Hi Hx.
  destruct (parseEinsum_recorded lt s o Hp) as [Hall _].
  assert (is_Some (o_all o !! x)) as [b Hb].
  { apply Hall. left. apply list_elem_of_In, in_concat. exists input.
    split; by apply list_elem_of_In. }
  unfold executor in He.
  destruct (fillFree _ _ _) as [cs0|] eqn:E0; [|done]. cbn [bind] in He.
  destruct (fillSummed _ _ _ _) as [cs1|] eqn:E1; [|done]. cbn [bind] in He.
  destruct (resolveDims _ _ _) as [[cs2 od]|] eqn:E2; [|done]. simpl in He.
  injection He as <- <-. simpl.
  destruct (fills_exact rho o cs0 cs1 Hrho (parseEinsum_recorded lt s o Hp) E0 E1)
    as [_ Hcs1].
  destruct (parseEinsum_recorded lt s o Hp) as [_ Hfree].
  destruct (range_order_keys rho (o_all o) Hrho) as (_ & _ & Hkeys).
  assert (ec_r <$> cs2 = ec_r <$> cs1) as ->.
  { transitivity (fst <$> ((fun ec => (ec_r ec, ec_free ec)) <$> cs2)).
    - by rewrite <- list_fmap_compose.
    - rewrite (resolveDims_keeps _ _ _ _ _ E2). by rewrite <- list_fmap_compose. }
  rewrite Hcs1, fmap_app, <- !list_fmap_compose. apply elem_of_app.
  destruct (mapGet (o_free o) x) eqn:Ef.
  - left. apply Hfree in Ef. apply list_elem_of_fmap. by exists x.
  - right. apply list_elem_of_fmap. exists x. split; [done|].
    apply list_elem_of_filter. split; [done|]. apply Hkeys. by eexists.
Qed.

Lemma Einsum_finds_counters_witness :
  range_order rho_keys /\
  Einsum noTable 8 rho_keys (runes "ik,kj->ij") [B22; C22]
  <> Some (Panic (CounterNotFound 107)).
Proof.
  split; [apply rho_keys_order|].
  apply (Einsum_finds_counters noTable rho_keys _ _ 8 107 rho_keys_order).
Defined.

(** ** What [dimOf] returns *)

Lemma matchedDim_Ok operands i m v :
  matchedDim operands i m = Ok v ->
  (m <= 1)%nat /\ exists M, operands !! i = Some M /\ axisDim M m = v.
Proof.
  destruct m as [|[|m]]; simpl; [| |done].
  - destruct (operands !! i) as [M|]; [|done]. intros [= <-].
    split; [lia|]. by exists M.
  - destruct (operands !! i) as [M|]; [|done]. intros [= <-].
    split; [lia|]. by exists M.
Qed.

Lemma dimOfLoop_sound r operands inputs : forall i dim d,
  dimOfLoop r operands inputs i dim = Ok d ->
  (dim <> 0 -> d = dim) /\
  forall j input m, inputs !! j = Some input -> firstMatch r input = Some m ->
    (m <= 1)%nat /\
    exists M, operands !! (i + j)%nat = Some M /\
              (axisDim M m = d \/ (axisDim M m = 0 /\ dim = 0)).
Proof.
  induction inputs as [|input inputs IH]; intros i dim d H; cbn [dimOfLoop] in H.
  { injection H as <-. split; [done|]. intros j ? ? Hj. by destruct j. }
  assert (forall dim', dimOfLoop r operands inputs (S i) dim' = Ok d ->
            forall j input' m, inputs !! j = Some input' ->
              firstMatch r input' = Some m ->
              (m <= 1)%nat /\
              exists M, operands !! (i + S j)%nat = Some M /\
                        (axisDim M m = d \/ (axisDim M m = 0 /\ dim' = 0)))
    as Htail.
  { intros dim' H' j input' m Hj Hm. destruct (IH _ _ _ H') as [_ IH2].
    replace (i + S j)%nat with (S i + j)%nat by lia. by eapply IH2. }
  destruct (firstMatch r input) as [m0|] eqn:E0.
  2:{ destruct (IH _ _ _ H) as [IH1 _]. split; [done|].
      intros [|j] input' m Hj Hm; simpl in Hj.
      - injection Hj as <-. congruence.
      - by eapply Htail. }
  destruct (matchedDim operands i m0) as [v|] eqn:Ev; [|done]. cbn [bind] in H.
  destruct (matchedDim_Ok _ _ _ _ Ev) as (Hm0 & M & HM & Hax).
  destruct (Z.eqb_spec dim 0) as [->|Hne].
  - destruct (IH _ _ _ H) as [IH1 _]. split; [done|].
    intros [|j] input' m Hj Hm; simpl in Hj.
    + injection Hj as <-. rewrite E0 in Hm. injection Hm as <-.
      split; [done|]. exists M. rewrite Nat.add_0_r. split; [done|].
      destruct (decide (v = 0)) as [->|Hv]; [by right|]. left.
      rewrite Hax. symmetry. by apply IH1.
    + destruct (Htail _ H j input' m Hj Hm) as (? & M' & ? & [?|[? ?]]).
      * split; [done|]. exists M'. by auto.
      * split; [done|]. exists M'. by auto.
  - destruct (Z.eqb_spec dim v) as [->|]; [|done]. cbn [negb] in H.
    destruct (IH _ _ _ H) as [IH1 _]. split; [done|].
    intros [|j] input' m Hj Hm; simpl in Hj.
    + injection Hj as <-. rewrite E0 in Hm. injection Hm as <-.
      split; [done|]. exists M. rewrite Nat.add_0_r. split; [done|].
      left. rewrite Hax. symmetry. by apply IH1.
    + destruct (Htail _ H j input' m Hj Hm) as (? & M' & ? & [?|[? ?]]).
      * split; [done|]. exists M'. by auto.
      * done.
Qed.

(** X12: when [dimOf] returns an extent [d] for a letter, every input
    that mentions the letter has it first at position 0 or 1, has an
    operand, and that operand's extent along the axis is [d], or is 0;
    an extent of 0 is only ever returned when all of them are 0. *)
Theorem dimOf_sound o r operands d :
  dimOf o r operands = Ok d ->
  forall i input m, o_inputs o !! i = Some input -> firstMatch r input = Some m ->
    (m <= 1)%nat /\
    exists M, operands !! i = Some M /\ (axisDim M m = d \/ axisDim M m = 0) /\
              (d = 0 -> axisDim M m = 0).
Proof.
  intros H i input m Hi Hm.
  destruct (dimOfLoop_sound _ _ _ _ _ _ H) as [_ Hs].
  destruct (Hs i input m Hi Hm) as (Hle & M & HM & Hax). simpl in HM.
  split; [done|]. exists M. split; [done|]. split; [tauto|].
  intros ->. tauto.
Qed.

Lemma dimOf_sound_witness :
  exists o, parseEinsum noTable (runes "ik,kj->ij") = Ok o /\
    dimOf o 107 [B22; C22] = Ok 2 /\
    (axisDim B22 1 = 2 \/ axisDim B22 1 = 0).
Proof.
  destruct (parseEinsum noTable (runes "ik,kj->ij")) as [o|] eqn:Hp;
    [|by vm_compute in Hp].
  assert (o_inputs o = [[105; 107]; [107; 106]]) as Hi.
  { vm_compute in Hp. by injection Hp as <-. }
  assert (dimOf o 107 [B22; C22] = Ok 2) as Hd.
  { vm_compute in Hp. injection Hp as <-. by vm_compute. }
  exists o. split; [done|]. split; [done|].
  destruct (dimOf_sound o 107 [B22; C22] 2 Hd 0%nat [105; 107] 1%nat)
    as (_ & M & HM & Hax & _).
  - by rewrite Hi.
  - done.
  - simpl in HM. by injection HM as <-.
Defined.

(** X13: two operands that bind one letter to different extents, neither
    of them 0, keep [dimOf] from returning an extent, wherever the letter
    stands in their inputs. *)
Theorem dimOf_mismatch o r operands i j input input' m m' M M' d :
  o_inputs o !! i = Some input -> firstMatch r input = Some m ->
  o_inputs o !! j = Some input' -> firstMatch r input' = Some m' ->
  operands !! i = Some M -> operands !! j = Some M' ->
  axisDim M m <> 0 -> axisDim M' m' <> 0 -> axisDim M m <> axisDim M' m' ->
  dimOf o r operands <> Ok d.
Proof.
  intros Hi Hm Hj Hm' HM HM' H0 H0' Hne H.
  destruct (dimOfLoop_sound _ _ _ _ _ _ H) as [_ Hs].
  destruct (Hs i input m Hi Hm) as (_ & M1 & HM1 & Hax).
  destruct (Hs j input' m' Hj Hm') as (_ & M2 & HM2 & Hax').
  simpl in HM1, HM2. rewrite HM in HM1. rewrite HM' in HM2.
  injection HM1 as <-. injection HM2 as <-.
  destruct Hax as [?|[? _]]; [|done]. destruct Hax' as [?|[? _]]; [|done].
  congruence.
Qed.

Lemma dimOf_mismatch_witness :
  exists o, parseEinsum noTable (runes "ik,kj->ij") = Ok o /\
    dimOf o 107 [B22; NewDense 3 2 [1; 2; 3; 4; 5; 6]%float] <> Ok 2.
Proof.
  destruct (parseEinsum noTable (runes "ik,kj->ij")) as [o|] eqn:Hp;
    [|by vm_compute in Hp].
  assert (o_inputs o = [[105; 107]; [107; 106]]) as Hi.
  { vm_compute in Hp. by injection Hp as <-. }
  exists o. split; [done|].
  apply (dimOf_mismatch o 107 _ 0%nat 1%nat [105; 107] [107; 106] 1%nat 0%nat
           B22 (NewDense 3 2 [1; 2; 3; 4; 5; 6]%float));
    try (by rewrite Hi); try done.
Defined.

(** X14: [dimOf] returns an extent only for letters within the two axes
    of every operand that has them: a letter that first occurs at position
    2 or later of an input, or in an input without an operand, makes it
    panic. *)
Theorem dimOf_rank_and_operands o r operands i input m d :
  o_inputs o !! i = Some input -> firstMatch r input = Some m ->
  (2 <= m)%nat \/ operands !! i = None ->
  dimOf o r operands <> Ok d.
Proof.
  intros Hi Hm Hbad H.
  destruct (dimOfLoop_sound _ _ _ _ _ _ H) as [_ Hs].
  destruct (Hs i input m Hi Hm) as (Hle & M & HM & _). simpl in HM.
  destruct Hbad as [?|Hnone]; [lia|congruence].
Qed.

Lemma dimOf_rank_and_operands_witness :
  exists o, parseEinsum noTable (runes "ijk->i") = Ok o /\
    dimOf o 107 [B22] = Panic (Only2D 2) /\ dimOf o 107 [B22] <> Ok 2.
Proof.
  destruct (parseEinsum noTable (runes "ijk->i")) as [o|] eqn:Hp;
    [|by vm_compute in Hp].
  assert (o_inputs o = [[105; 106; 107]]) as Hi.
  { vm_compute in Hp. by injection Hp as <-. }
  exists o. split; [done|]. split.
  { vm_compute in Hp. injection Hp as <-. by vm_compute. }
  apply (dimOf_rank_and_operands o 107 [B22] 0%nat [105; 106; 107] 2%nat).
  - by rewrite Hi.
  - done.
  - left. lia.
Defined.

Lemma firstMatch_elem r input m : firstMatch r input = Some m -> r ∈ input.
Proof.
  revert m. induction input as [|x input IH]; intros m Em; [done|].
  simpl in Em. destruct (Z.eqb_spec x r) as [->|]; [by constructor|].
  destruct (firstMatch r input) eqn:E; [|done]. constructor. by eapply IH.
Qed.

Lemma firstMatch_not_elem r input : firstMatch r input = None -> r ∉ input.
Proof.
  induction input as [|x input IH]; intros Em; [by intros H; inversion H|].
  simpl in Em. destruct (Z.eqb_spec x r); [done|].
  destruct (firstMatch r input); [done|].
  apply not_elem_of_cons. split; [congruence|by apply IH].
Qed.

Lemma dimOfLoop_agree r operands d inputs : forall i dim,
  dim = 0 \/ dim = d ->
  (forall j input m, inputs !! j = Some input -> firstMatch r input = Some m ->
     (m <= 1)%nat /\ exists M, operands !! (i + j)%nat = Some M /\ axisDim M m = d) ->
  exists d', dimOfLoop r operands inputs i dim = Ok d' /\
    (dim = d -> d' = d) /\
    ((exists input, input ∈ inputs /\ r ∈ input) -> d' = d).
Proof.
  induction inputs as [|input inputs IH]; intros i dim Hdim Hall.
  { exists dim. split; [done|]. split; [done|]. intros (? & H & _).
    by apply elem_of_nil in H. }
  assert (forall j input' m, inputs !! j = Some input' ->
            firstMatch r input' = Some m ->
            (m <= 1)%nat /\
            exists M, operands !! (S i + j)%nat = Some M /\ axisDim M m = d)
    as Hall'.
  { intros j input' m Hj Hm. replace (S i + j)%nat with (i + S j)%nat by lia.
    by apply (Hall (S j) input' m). }
  cbn [dimOfLoop]. destruct (firstMatch r input) as [m|] eqn:Em.
  - destruct (Hall 0%nat input m eq_refl Em) as (Hle & M & HM & Hax).
    rewrite Nat.add_0_r in HM.
    assert (matchedDim operands i m = Ok d) as ->.
    { destruct m as [|[|m]]; simpl; [| |lia]; by rewrite HM, <- Hax. }
    cbn [bind].
    destruct (IH (S i) d (or_intror eq_refl) Hall') as (d' & Hrec & Hd' & _).
    specialize (Hd' eq_refl). subst d'. exists d.
    split; [|by split].
    destruct (Z.eqb_spec dim 0); [done|].
    destruct Hdim as [?| ->]; [done|]. by rewrite Z.eqb_refl.
  - destruct (IH (S i) dim Hdim Hall') as (d' & Hrec & Hd1 & Hd2).
    exists d'. split; [done|]. split; [done|].
    intros (w & Hw & Hr). apply Hd2.
    apply elem_of_cons in Hw as [->|Hw]; [|by exists w].
    by destruct (firstMatch_not_elem _ _ Em).
Qed.

(** X15: when every input that mentions a letter has it first at
    position 0 or 1 and every operand of such an input has the extent [d]
    along that axis, [dimOf] returns [d] for the letter. *)
Theorem dimOf_agree o r operands d :
  (exists input, input ∈ o_inputs o /\ r ∈ input) ->
  (forall i input m, o_inputs o !! i = Some input -> firstMatch r input = Some m ->
     (m <= 1)%nat /\ exists M, operands !! i = Some M /\ axisDim M m = d) ->
  dimOf o r operands = Ok d.
Proof.
  intros Hex Hall. unfold dimOf.
  destruct (dimOfLoop_agree r operands d (o_inputs o) 0%nat 0)
    as (d' & Hd' & _ & Hd); [by left|done|].
  by rewrite Hd', (Hd Hex).
Qed.

Lemma dimOf_agree_witness :
  exists o, parseEinsum noTable (runes "ik,kj->ij") = Ok o /\
            dimOf o 107 [B22; C22] = Ok 2.
Proof.
  destruct (parseEinsum noTable (runes "ik,kj->ij")) as [o|] eqn:Hp;
    [|by vm_compute in Hp].
  assert (o_inputs o = [[105; 107]; [107; 106]]) as Hi.
  { vm_compute in Hp. by injection Hp as <-. }
  exists o. split; [done|]. apply dimOf_agree.
  - exists [105; 107]. rewrite Hi. split; [by constructor|].
    by constructor; constructor.
  - rewrite Hi. intros [|[|i]] input m Hin Hm; simpl in Hin; [| |done].
    + injection Hin as <-. vm_compute in Hm. injection Hm as <-.
      split; [lia|]. by exists B22.
    + injection Hin as <-. vm_compute in Hm. injection Hm as <-.
      split; [lia|]. by exists C22.
Defined.

(** ** The projected index and the output buffer *)

Lemma space_app cs cs' : space (cs ++ cs') = space cs * space cs'.
Proof. induction cs as [|ec cs IH]; simpl; [lia|]. rewrite IH. lia. Qed.

Lemma space_product cs :
  Forall (fun ec => 1 <= ec_dim ec) cs -> space cs = foldr Z.mul 1 (ec_dim <$> cs).
Proof.
  induction 1 as [|ec cs H _ IH]; [done|].
  rewrite fmap_cons. cbn [foldr space]. rewrite IH. unfold ext. f_equal. lia.
Qed.

Lemma is_int_between z hi : 0 <= z -> z <= hi -> hi < 2 ^ 63 -> is_int z.
Proof. unfold is_int. lia. Qed.

Lemma outputIdxLoop_radix pre : forall post,
  Forall inRange (pre ++ post) ->
  Forall (fun ec => 1 <= ec_dim ec) (freeCounters (pre ++ post)) ->
  space (freeCounters (pre ++ post)) < 2 ^ 63 ->
  outputIdxLoop (rev pre) (radixValue (freeCounters post)) (space (freeCounters post))
  = radixValue (freeCounters (pre ++ post)).
Proof.
  induction pre as [|ec p IH] using rev_ind; intros post Hok Hdim Hsp; [done|].
  rewrite rev_app_distr. cbn [rev app outputIdxLoop].
  rewrite <- app_assoc in Hok, Hdim, Hsp |- *. cbn [app] in Hok, Hdim, Hsp |- *.
  specialize (IH (ec :: post) Hok Hdim Hsp).
  destruct (ec_free ec) eqn:Ef; cbn [negb].
  - unfold freeCounters in IH, Hdim, Hsp. rewrite filter_app in Hdim, Hsp.
    rewrite (filter_cons_True _ _ post) in IH, Hdim, Hsp by done.
    fold (freeCounters post) in IH, Hdim, Hsp.
    fold (freeCounters p) in Hdim, Hsp.
    apply Forall_app in Hdim as [_ Hdim]. inversion Hdim as [|? ? Hd1 Hdpost]; subst.
    apply Forall_app in Hok as [_ Hok]. inversion Hok as [|? ? [Hi Hv] Hokpost]; subst.
    assert (Forall inRange (freeCounters post)) as Hokf
      by (apply Forall_forall; intros x Hx; apply list_elem_of_filter in Hx as [_ Hx];
          by apply (proj1 (Forall_forall _ _) Hokpost)).
    pose proof (radixValue_bounds _ Hokf) as Hb.
    pose proof (space_pos (freeCounters post)) as Hs1.
    pose proof (space_pos (freeCounters p)) as Hs2.
    rewrite space_app in Hsp. cbn [space] in Hsp.
    assert (ext ec = ec_dim ec) as He by (unfold ext; lia). rewrite He in Hsp, Hv.
    set (J := space (freeCounters post)) in *.
    set (I := radixValue (freeCounters post)) in *.
    assert (ec_dim ec * J < 2 ^ 63) as Hbig by nia.
    assert (mul64 (ec_v ec) J = ec_v ec * J) as ->.
    { apply wrap64_int. apply (is_int_between _ (ec_dim ec * J)); nia. }
    assert (add64 I (ec_v ec * J) = ec_v ec * J + I) as ->.
    { unfold add64. rewrite wrap64_int; [lia|].
      apply (is_int_between _ (ec_dim ec * J)); nia. }
    assert (mul64 J (ec_dim ec) = ec_dim ec * J) as ->.
    { unfold mul64. rewrite wrap64_int; [lia|].
      apply (is_int_between _ (ec_dim ec * J)); nia. }
    cbn [radixValue space] in IH. rewrite He in IH. exact IH.
  - unfold freeCounters in IH.
    rewrite (filter_cons_False _ _ post) in IH by (by rewrite Ef).
    exact IH.
Qed.

(** X16: [outputIdx] is the row-major position of the free counters: the
    values of the free counters read as a mixed-radix number over their
    extents, the summed counters left out; it lies within the product of
    the free extents.  This holds while that product fits a Go [int]. *)
Theorem outputIdx_row_major c :
  Forall inRange (c_c c) ->
  Forall (fun ec => 1 <= ec_dim ec) (freeCounters (c_c c)) ->
  foldr Z.mul 1 (ec_dim <$> freeCounters (c_c c)) < 2 ^ 63 ->
  outputIdx c = radixValue (freeCounters (c_c c)) /\
  0 <= outputIdx c < foldr Z.mul 1 (ec_dim <$> freeCounters (c_c c)).
Proof.
  intros Hok Hdim Hsp. rewrite <- space_product in Hsp |- * by done.
  assert (outputIdx c = radixValue (freeCounters (c_c c))) as ->.
  { unfold outputIdx.
    pose proof (outputIdxLoop_radix (c_c c) []) as H.
    rewrite app_nil_r in H. by apply H. }
  split; [done|]. apply radixValue_bounds.
  apply Forall_forall. intros x Hx. apply list_elem_of_filter in Hx as [_ Hx].
  by apply (proj1 (Forall_forall _ _) Hok).
Qed.

Lemma outputIdx_row_major_witness :
  outputIdx midCounters = 1 * 3 + 2 /\ 0 <= outputIdx midCounters < 2 * 3.
Proof.
  destruct (outputIdx_row_major midCounters) as [H1 H2].
  - repeat constructor; by vm_compute.
  - repeat constructor; by vm_compute.
  - by vm_compute.
  - split; [rewrite H1; by vm_compute|exact H2].
Defined.

Lemma mul64_fold_product l : forall a,
  Forall (fun d => 1 <= d) l -> 0 <= a -> a * foldr Z.mul 1 l < 2 ^ 63 ->
  fold_left mul64 l a = a * foldr Z.mul 1 l.
Proof.
  induction l as [|x l IH]; intros a Hl Ha Hb; simpl; [lia|].
  inversion Hl as [|? ? Hx Hl']; subst. simpl in Hb.
  assert (1 <= foldr Z.mul 1 l) as Hp.
  { clear -Hl'. induction Hl' as [|y l Hy _ IH]; simpl; [lia|nia]. }
  assert (mul64 a x = a * x) as ->.
  { apply wrap64_int. apply (is_int_between _ (a * (x * foldr Z.mul 1 l))); nia. }
  rewrite IH; [lia|done|nia|lia].
Qed.




(** ** What each cell of the result holds *)

Lemma accumulate_Ok out idx cur out' :
  accumulate out idx cur = Ok out' ->
  0 <= idx < Z.of_nat (length out) /\
  out' = <[Z.to_nat idx := PrimFloat.add (nth (Z.to_nat idx) out 0%float) cur]> out.
Proof.
  unfold accumulate.
  destruct (Z.leb_spec 0 idx); [|done].
  destruct (Z.ltb_spec idx (Z.of_nat (length out))); [|done].
  cbn [andb]. intros E. split; [lia|]. by simplify_eq.
Qed.

Lemma runStates_cells ops operands sts : forall out out',
  runStates ops operands sts out = Ok out' ->
  length out' = length out /\
  forall k, (k < length out)%nat ->
    sumOver ops operands
      (filter (fun st => outputIdx {| c_c := st; c_done := false |} = Z.of_nat k) sts)
      (nth k out 0%float)
    = Ok (nth k out' 0%float).
Proof.
  induction sts as [|st sts IH]; intros out out' H.
  { cbn [runStates] in H. simplify_eq. split; [done|]. intros k _. by rewrite filter_nil. }
  cbn [runStates] in H. unfold body in H.
  destruct (product _ _ _ _ _) as [cur|] eqn:Ep; [|done]. cbn [bind] in H.
  destruct (accumulate _ _ _) as [out1|] eqn:Ea; [|done]. cbn [bind] in H.
  apply accumulate_Ok in Ea as [Hidx ->].
  destruct (IH _ _ H) as [Hlen Hcells]. rewrite length_insert in Hlen, Hcells.
  split; [done|]. intros k Hk. specialize (Hcells k Hk).
  destruct (decide (outputIdx {| c_c := st; c_done := false |} = Z.of_nat k)) as [E|E].
  - rewrite filter_cons_True by done. cbn [sumOver]. rewrite Ep. cbn [bind].
    rewrite E, Nat2Z.id in Hcells.
    rewrite (nth_lookup (<[_ := _]> _)), list_lookup_insert_eq in Hcells by done.
    exact Hcells.
  - rewrite filter_cons_False by done.
    rewrite (nth_lookup (<[_ := _]> _)), list_lookup_insert_ne in Hcells by lia.
    by rewrite <- nth_lookup in Hcells.
Qed.

Lemma filter_ext_in {A} (P Q : A -> Prop) `{!forall x, Decision (P x)}
    `{!forall x, Decision (Q x)} (l : list A) :
  (forall x, x ∈ l -> P x <-> Q x) -> filter P l = filter Q l.
Proof.
  induction l as [|x l IH]; intros Hext; [done|].
  assert (filter P l = filter Q l) as E
    by (apply IH; intros y Hy; apply Hext; by right).
  pose proof (Hext x ltac:(by left)) as Hx.
  destruct (decide (P x)).
  - rewrite !filter_cons_True by tauto. by rewrite E.
  - rewrite !filter_cons_False by tauto. done.
Qed.

Lemma freeCounters_static st : forall cs,
  static <$> st = static <$> cs ->
  static <$> freeCounters st = static <$> freeCounters cs.
Proof.
  induction st as [|ec st IH]; intros [|ec' cs] H; try done.
  rewrite !fmap_cons in H.
  assert (static ec = static ec') as E1 by congruence.
  assert (static <$> st = static <$> cs) as E2 by congruence.
  specialize (IH cs E2). unfold freeCounters in *.
  assert (ec_free ec = ec_free ec') as Ef by (unfold static in E1; congruence).
  destruct (ec_free ec') eqn:Ef'.
  - rewrite !filter_cons_True by done. rewrite !fmap_cons. by rewrite E1, IH.
  - rewrite !filter_cons_False by (by rewrite ?Ef, ?Ef'). done.
Qed.

Lemma static_dims (st cs : list einsumCounter) :
  static <$> st = static <$> cs -> ec_dim <$> st = ec_dim <$> cs.
Proof.
  intros H. apply (f_equal (fmap snd)) in H.
  by rewrite <- !list_fmap_compose in H.
Qed.

Lemma freeCounters_Forall (P : einsumCounter -> Prop) cs :
  Forall P cs -> Forall P (freeCounters cs).
Proof.
  intros H. apply Forall_forall. intros x Hx.
  apply list_elem_of_filter in Hx as [_ Hx].
  by apply (proj1 (Forall_forall _ _) H).
Qed.

(** The projected index of a state of the nested loops. *)
Lemma combos_outputIdx cs st :
  Forall (fun ec => is_int (ec_dim ec)) cs ->
  Forall (fun ec => 1 <= ec_dim ec) cs ->
  space (freeCounters cs) < 2 ^ 63 ->
  st ∈ combos cs ->
  outputIdx {| c_c := st; c_done := false |} = radixValue (freeCounters st).
Proof.
  intros Hint Hdim Hsp Hst.
  pose proof (combos_static _ _ Hst) as Hs.
  pose proof (combos_inRange _ Hint _ Hst) as Hok.
  unfold outputIdx. cbn [c_c].
  pose proof (outputIdxLoop_radix st []) as H. rewrite app_nil_r in H.
  apply H; [done| |].
  - apply freeCounters_Forall. apply Forall_forall. intros ec Hec.
    assert (ec_dim ec ∈ ec_dim <$> st) as Hin
      by (apply list_elem_of_fmap; eauto).
    rewrite (static_dims _ _ Hs) in Hin.
    apply list_elem_of_fmap in Hin as (ec' & -> & Hec').
    by apply (proj1 (Forall_forall _ _) Hdim).
  - by rewrite (space_static _ _ (freeCounters_static _ _ Hs)).
Qed.

Lemma setup_Ok lt rho s operands ops exc dim out :
  setup lt rho s operands = Ok (ops, exc, dim, out) ->
  parseEinsum lt s = Ok ops /\ executor rho ops operands = Ok (exc, dim) /\
  outputZeros dim = Ok out.
Proof.
  unfold setup. destruct (parseEinsum lt s) as [o|]; [|done]. cbn [bind].
  destruct (executor rho o operands) as [[exc' dim']|] eqn:He; [|done]. cbn [bind].
  destruct (outputZeros dim') as [out0|] eqn:Hz; [|done]. cbn [bind].
  intros H. by simplify_eq.
Qed.

Lemma Einsum_Ok lt fuel rho s operands dim out :
  Einsum lt fuel rho s operands = Some (Ok (dim, out)) ->
  exists ops exc out0,
    setup lt rho s operands = Ok (ops, exc, dim, out0) /\
    loop fuel ops operands exc out0 = Some (Ok out).
Proof.
  unfold Einsum. destruct (setup lt rho s operands) as [[[[ops exc] dim'] out0]|]; [|done].
  destruct (loop fuel ops operands exc out0) as [[out'|]|] eqn:El; try done.
  intros H. exists ops, exc, out0. by simplify_eq.
Qed.

(** The drive loop of a successful [Einsum] is the run of the nested
    loops from the buffer of zeros. *)
Lemma Einsum_runStates lt fuel rho s operands o exc dim dim' out :
  parseEinsum lt s = Ok o -> executor rho o operands = Ok (exc, dim) ->
  Forall int_dims operands ->
  Forall (fun ec => 1 <= ec_dim ec) (c_c exc) ->
  Einsum lt fuel rho s operands = Some (Ok (dim', out)) ->
  dim' = dim /\ c_c exc <> [] /\
  exists out0, outputZeros dim = Ok out0 /\
    runStates o operands (combos (c_c exc)) out0 = Ok out.
Proof.
  intros Hp He Hops Hdims HE.
  apply Einsum_Ok in HE as (ops & exc' & out0 & Hs & Hl).
  apply setup_Ok in Hs as (Hp' & He' & Hz).
  rewrite Hp in Hp'. injection Hp' as <-.
  rewrite He in He'. injection He' as <- <-.
  destruct (executor_spec _ _ _ _ _ He) as (Hd & Hlen & Hzero & Hint & _ & Hdim).
  specialize (Hint Hops). pose proof (zero_inRange _ Hzero Hint) as Hok.
  split; [done|].
  assert (c_c exc <> []) as Hne.
  { intros E. by apply (loop_nil fuel o operands exc out0 out). }
  split; [done|]. exists out0. split; [done|].
  set (N := Z.to_nat (space (c_c exc))).
  apply (loop_mono _ (Nat.max fuel N)) in Hl; [|lia].
  rewrite (loop_run o operands N exc out0 _ Hd Hok Hne) in Hl; [| |lia].
  2:{ rewrite (zero_radixValue _ Hzero). pose proof (space_pos (c_c exc)). lia. }
  unfold N in Hl. rewrite visited_combos in Hl by done. by simplify_eq.
Qed.

(** X18: what a returned buffer holds.  When [Einsum] returns, with
    extents of at least 1 and a shape whose product fits a Go [int], the
    buffer has one cell per combination of values of the free counters,
    and the cell at row-major position [k] holds the sum, over the index
    combinations whose free counters stand at position [k], taken in
    the order of the nested loops and starting from zero, of the product
    of the operand elements that the counters select. *)
Theorem Einsum_cells lt rho s operands o exc dim fuel dim' out :
  parseEinsum lt s = Ok o -> executor rho o operands = Ok (exc, dim) ->
  Forall int_dims operands ->
  Forall (fun ec => 1 <= ec_dim ec) (c_c exc) ->
  foldr Z.mul 1 dim < 2 ^ 63 ->
  Einsum lt fuel rho s operands = Some (Ok (dim', out)) ->
  dim' = dim /\ Z.of_nat (length out) = foldr Z.mul 1 dim /\
  forall k, (k < length out)%nat ->
    sumOver o operands
      (filter (fun st => radixValue (freeCounters st) = Z.of_nat k)
              (combos (c_c exc)))
      0%float
    = Ok (nth k out 0%float).
Proof.
  intros Hp He Hops Hdims Hsp HE.
  destruct (Einsum_runStates _ _ _ _ _ _ _ _ _ _ Hp He Hops Hdims HE)
    as (-> & Hne & out0 & Hz & Hrun).
  destruct (executor_spec _ _ _ _ _ He) as (Hd & Hlen & Hzero & Hint & _ & Hdim).
  specialize (Hint Hops).
  assert (Forall (fun d => 0 <= d) dim) as Hnn.
  { rewrite Hdim. apply Forall_fmap. apply freeCounters_Forall.
    eapply Forall_impl; [exact Hdims|]. simpl. lia. }
  assert (out0 = replicate (Z.to_nat (foldr Z.mul 1 dim)) 0%float) as ->.
  { assert (fold_left mul64 dim 1 = foldr Z.mul 1 dim) as E.
    { rewrite mul64_fold_product; [lia| |lia|lia].
      rewrite Hdim. apply Forall_fmap. by apply freeCounters_Forall. }
    unfold outputZeros in Hz. rewrite E in Hz.
    destruct (Z.ltb_spec (foldr Z.mul 1 dim) 0); by simplify_eq. }
  destruct (runStates_cells _ _ _ _ _ Hrun) as [Hlen' Hcells].
  rewrite length_replicate in Hlen', Hcells.
  assert (0 <= foldr Z.mul 1 dim) as Hp0.
  { clear -Hnn. induction Hnn as [|y l Hy _ IH]; simpl; [lia|nia]. }
  split; [done|]. split; [lia|]. intros k Hk. rewrite Hlen' in Hk.
  specialize (Hcells k Hk).
  rewrite nth_lookup, lookup_replicate_2 in Hcells by done. cbn [default] in Hcells.
  rewrite <- Hcells. f_equal. apply filter_ext_in. intros st Hst.
  rewrite (combos_outputIdx (c_c exc)); [done|done|done| |done].
  rewrite space_product by (by apply freeCounters_Forall).
  unfold freeCounters. by rewrite <- Hdim.
Qed.

Lemma Einsum_cells_witness :
  exists o exc dim,
    parseEinsum noTable (runes "ij->j") = Ok o /\
    executor rho_keys o [rect23] = Ok (exc, dim) /\
    sumOver o [rect23]
      (filter (fun st => radixValue (freeCounters st) = 1) (combos (c_c exc)))
      0%float
    = Ok 7%float.
Proof.
  destruct (parseEinsum noTable (runes "ij->j")) as [o|] eqn:Hp;
    [|by vm_compute in Hp].
  destruct (executor rho_keys o [rect23]) as [[exc dim]|] eqn:He.
  2:{ vm_compute in Hp. injection Hp as <-. by vm_compute in He. }
  exists o, exc, dim. split; [done|]. split; [done|].
  destruct (Einsum_cells noTable rho_keys (runes "ij->j") [rect23] o exc dim 6
              [3] [5; 7; 9]%float Hp He) as (_ & _ & H).
  - repeat constructor; by vm_compute.
  - vm_compute in Hp. injection Hp as <-. vm_compute in He.
    injection He as <- <-. repeat constructor; by vm_compute.
  - vm_compute in Hp. injection Hp as <-. vm_compute in He.
    injection He as <- <-. by vm_compute.
  - by vm_compute.
  - exact (H 1%nat ltac:(simpl; lia)).
Defined.

(** ** Operands and inputs *)

Lemma executor_covers rho o operands exc dim :
  range_order rho -> recorded o -> executor rho o operands = Ok (exc, dim) ->
  forall x, is_Some (o_all o !! x) -> x ∈ ec_r <$> c_c exc.
Proof.
  intros Hrho Hrec He x Hx. unfold executor in He.
  destruct (fillFree _ _ _) as [cs0|] eqn:E0; [|done]. cbn [bind] in He.
  destruct (fillSummed _ _ _ _) as [cs1|] eqn:E1; [|done]. cbn [bind] in He.
  destruct (resolveDims _ _ _) as [[cs2 od]|] eqn:E2; [|done]. simpl in He.
  injection He as <- <-. simpl.
  destruct (fills_exact rho o cs0 cs1 Hrho Hrec E0 E1) as [_ Hcs1].
  destruct Hrec as [_ Hfree].
  destruct (range_order_keys rho (o_all o) Hrho) as (_ & _ & Hkeys).
  assert (ec_r <$> cs2 = ec_r <$> cs1) as ->.
  { transitivity (fst <$> ((fun ec => (ec_r ec, ec_free ec)) <$> cs2)).
    - by rewrite <- list_fmap_compose.
    - rewrite (resolveDims_keeps _ _ _ _ _ E2). by rewrite <- list_fmap_compose. }
  rewrite Hcs1, fmap_app, <- !list_fmap_compose. apply elem_of_app.
  destruct (mapGet (o_free o) x) eqn:Ef.
  - left. apply Hfree in Ef. apply list_elem_of_fmap. by exists x.
  - right. apply list_elem_of_fmap. exists x. split; [done|].
    apply list_elem_of_filter. split; [done|]. by apply Hkeys.
Qed.

Lemma firstMatch_take r input m :
  firstMatch r input = Some m -> (m <= 1)%nat -> r ∈ take 2 input.
Proof.
  destruct input as [|x [|y input]]; simpl; [done| |].
  - destruct (Z.eqb_spec x r) as [->|]; [intros _ _; by left|done].
  - destruct (Z.eqb_spec x r) as [->|]; [intros _ _; by left|].
    destruct (Z.eqb_spec y r) as [->|]; [intros _ _; right; by left|].
    destruct (firstMatch r input); intros H Hm; simplify_eq/=. lia.
Qed.

Lemma product_Ok_inputs ops exc operands : forall i cur x,
  product ops exc operands i cur = Ok x ->
  operands = [] \/ (i + length operands <= length (o_inputs ops))%nat.
Proof.
  induction operands as [|M operands IH]; intros i cur x H; simpl in *; [by left|].
  destruct (o_inputs ops !! i) as [input|] eqn:E; [|done].
  destruct (operandAt exc M input) as [y|]; [|done]. cbn [bind] in H.
  apply lookup_lt_Some in E. right.
  apply IH in H as [->|H]; simpl; lia.
Qed.

(** X19: [Einsum] returns only when it is given exactly one operand for
    each input of the subscript, and every letter of an input occurs
    among the first two letters of that input: more operands than inputs
    panic in the first turn of the loop, fewer in the dimension
    resolver, and so does a letter of a third axis. *)
Theorem Einsum_operands lt rho s o operands fuel res :
  range_order rho -> parseEinsum lt s = Ok o ->
  Einsum lt fuel rho s operands = Some (Ok res) ->
  length operands = length (o_inputs o) /\
  Forall (fun input => forall r, r ∈ input -> r ∈ take 2 input) (o_inputs o).
Proof.
  intros Hrho Hp HE. destruct res as [dim out].
  apply Einsum_Ok in HE as (ops & exc & out0 & Hs & Hl).
  apply setup_Ok in Hs as (Hp' & He & Hz).
  rewrite Hp in Hp'. injection Hp' as <-.
  pose proof (parseEinsum_recorded lt s o Hp) as Hrec.
  pose proof (executor_covers _ _ _ _ _ Hrho Hrec He) as Hcov.
  destruct (executor_spec _ _ _ _ _ He) as (Hd & _ & _ & _ & Hdims & _).
  destruct (parseLoop_shaped lt s emptyOps opsParseModeNewInput o)
    as [(_ & Hwords & _) _]; [apply shaped_empty|exact Hp|].
  assert (forall i input r, o_inputs o !! i = Some input -> r ∈ input ->
            is_Some (operands !! i) /\ r ∈ take 2 input) as Hin.
  { intros i input r Hi Hr.
    assert (r ∈ ec_r <$> c_c exc) as Hc.
    { apply Hcov, Hrec. left. apply list_elem_of_In, in_concat. exists input.
      split; apply list_elem_of_In; [by eapply list_elem_of_lookup_2|done]. }
    apply list_elem_of_fmap in Hc as (ec & -> & Hec).
    pose proof (proj1 (Forall_forall _ _) Hdims ec Hec) as Hdim. cbv beta in Hdim.
    destruct (firstMatch (ec_r ec) input) as [m|] eqn:Em.
    2:{ by apply firstMatch_not_elem in Em. }
    destruct (dimOfLoop_sound _ _ _ _ _ _ Hdim) as [_ Hsound].
    destruct (Hsound i input m Hi Em) as (Hm & M & HM & _). simpl in HM.
    split; [by eexists|by eapply firstMatch_take]. }
  split.
  - apply Nat.le_antisymm.
    + destruct fuel as [|fuel]; simpl in Hl; rewrite Hd in Hl; [done|].
      unfold body in Hl.
      destruct (product o exc operands 0 1%float) as [cur|] eqn:Ep; [|done].
      apply product_Ok_inputs in Ep as [->|Ep]; simpl in *; lia.
    + destruct (o_inputs o) as [|w ws] eqn:Ei using rev_ind; [simpl; lia|].
      clear IHws. rewrite length_app. simpl.
      assert ((ws ++ [w]) !! length ws = Some w) as Hw
        by (by rewrite lookup_app_r, Nat.sub_diag by lia).
      apply Forall_app in Hwords as [_ Hw']. inversion Hw' as [|? ? [Hne _] _]; subst.
      destruct w as [|r w]; [done|].
      destruct (Hin (length ws) (r :: w) r Hw) as [[M HM] _]; [by left|].
      apply lookup_lt_Some in HM. lia.
  - apply Forall_forall. intros input Hi r Hr.
    apply list_elem_of_lookup in Hi as [i Hi]. by apply (Hin i input r).
Qed.

Lemma Einsum_operands_witness :
  exists o, parseEinsum noTable (runes "ij,jk->ik") = Ok o /\
    length [A22; B22] = length (o_inputs o).
Proof.
  destruct (parseEinsum noTable (runes "ij,jk->ik")) as [o|] eqn:Hp;
    [|by vm_compute in Hp].
  exists o. split; [done|].
  destruct (Einsum_operands noTable rho_keys (runes "ij,jk->ik") o [A22; B22] 8
              ([2; 2], [3; 2; 7; 4]%float) rho_keys_order Hp) as [H _];
    [by vm_compute|exact H].
Defined.

(** ** Calls that return *)















(** ** Operands without elements *)

Lemma product_Ok_each ops exc operands : forall i cur x,
  product ops exc operands i cur = Ok x ->
  forall j M, operands !! j = Some M ->
    exists input y, o_inputs ops !! (i + j)%nat = Some input /\
                    operandAt exc M input = Ok y.
Proof.
  induction operands as [|M0 operands IH]; intros i cur x H j M Hj; [done|].
  simpl in H. destruct (o_inputs ops !! i) as [input|] eqn:E; [|done].
  destruct (operandAt exc M0 input) as [y|] eqn:Ey; [|done]. cbn [bind] in H.
  destruct j as [|j]; simpl in Hj.
  - injection Hj as <-. rewrite Nat.add_0_r. by exists input, y.
  - replace (i + S j)%nat with (S i + j)%nat by lia. by eapply IH.
Qed.

Lemma At_Ok_inv M i j x :
  At M i j = Ok x -> 0 <= i < m_rows M /\ 0 <= j < m_cols M.
Proof.
  unfold At.
  destruct (Z.leb_spec 0 i); [|done]. destruct (Z.ltb_spec i (m_rows M)); [|done].
  destruct (Z.leb_spec 0 j); [|done]. destruct (Z.ltb_spec j (m_cols M)); [|done].
  lia.
Qed.

Lemma operandAt_Ok_inv exc M input x :
  operandAt exc M input = Ok x -> 1 <= m_rows M /\ 1 <= m_cols M.
Proof.
  unfold operandAt. destruct (indexesFor exc input) as [[|i0 [|i1 vs]]|]; try done;
    cbn [bind]; intros H; apply At_Ok_inv in H; lia.
Qed.

(** X21: [Einsum] never returns for an operand without elements: every
    turn of the loop reads one element of every operand, so an operand
    with no row or no column makes the first turn panic, also when the
    shape of the result has a zero extent and the buffer is empty. *)
Theorem Einsum_needs_elements lt rho s operands fuel res :
  Einsum lt fuel rho s operands = Some (Ok res) ->
  Forall (fun M => 1 <= m_rows M /\ 1 <= m_cols M) operands.
Proof.
  intros HE. destruct res as [dim out].
  apply Einsum_Ok in HE as (ops & exc & out0 & Hs & Hl).
  apply setup_Ok in Hs as (Hp & He & Hz).
  destruct (executor_spec _ _ _ _ _ He) as (Hd & _).
  destruct fuel as [|fuel]; simpl in Hl; rewrite Hd in Hl; [done|].
  unfold body in Hl.
  destruct (product ops exc operands 0 1%float) as [cur|] eqn:Ep; [|done].
  apply Forall_forall. intros M HM. apply list_elem_of_lookup in HM as [j Hj].
  destruct (product_Ok_each _ _ _ _ _ _ Ep j M Hj) as (input & y & _ & Hy).
  by eapply operandAt_Ok_inv.
Qed.

Lemma Einsum_needs_elements_witness :
  Forall (fun M => 1 <= m_rows M /\ 1 <= m_cols M) [A22; B22].
Proof.
  apply (Einsum_needs_elements noTable rho_keys (runes "ij,jk->ik") [A22; B22] 8
           ([2; 2], [3; 2; 7; 4]%float)).
  by vm_compute.
Defined.
